(** * ical-print: the filter / sort / group / render pipeline

    A shallow embedding of the TypeScript command-line tool [ical-print]
    (the single source module with [makeMatcher], [applyFilter],
    [sortEvents], [groupByMonth], [formatTime], [renderHTML] and
    [escapeHtml]) together with the properties its specification states.

    Conventions of the embedding.
    - A JavaScript string is a [string]: the sequence of the bytes of its
      UTF-8 encoding.  The five characters [escapeHtml] replaces and every
      character of the templates' markup are ASCII, and an ASCII byte never
      occurs inside the encoding of another character, so replacing and
      concatenating act on the bytes exactly as they act on UTF-16 code units.
    - A [Date] is its time value, an integer number of milliseconds since the
      epoch.  Time values lie within 8.64e15 of zero, hence are exact as
      doubles, and the sign of a difference of two of them is the sign of the
      integer difference.
    - What the program takes from its runtime and its libraries
      ([String.prototype.localeCompare], [RegExp], [date-fns-tz]'s
      [formatInTimeZone], [Date.prototype.toLocaleTimeString]) is an
      interface: a type class.  A small reference instance at the end of the
      definitions makes every function of the model executable.
    - [Array.prototype.sort] mutates its receiver.  Functions that sort in
      place return the new contents of the array they were handed. *)

From Stdlib Require Import ZArith List String Ascii Bool Lia DecimalString.
From Stdlib Require Import Sorting.Sorted Sorting.Permutation.
Import ListNotations.

Local Open Scope string_scope.
Local Open Scope Z_scope.

(* ================================================================== *)
(** * JavaScript values the program manipulates *)
(* ================================================================== *)

(** ** Numbers returned by comparators

    The comparator of [groupByMonth] subtracts values that may be
    [Number.POSITIVE_INFINITY]; the result of a comparator is therefore a
    finite integer, an infinity, or [NaN]. *)

Inductive Number : Type :=
| Fin (z : Z)
| PosInf
| NegInf
| NaN.

(** [a - b] on Numbers. *)
Definition Number_sub (a b : Number) : Number :=
  match a, b with
  | NaN, _ | _, NaN => NaN
  | Fin x, Fin y => Fin (x - y)
  | Fin _, PosInf => NegInf
  | Fin _, NegInf => PosInf
  | PosInf, PosInf => NaN
  | PosInf, _ => PosInf
  | NegInf, NegInf => NaN
  | NegInf, _ => NegInf
  end.

(** [a !== b] on Numbers: [NaN] differs from everything, itself included. *)
Definition Number_strict_neq (a b : Number) : bool :=
  match a, b with
  | Fin x, Fin y => negb (x =? y)
  | PosInf, PosInf => false
  | NegInf, NegInf => false
  | _, _ => true
  end.

(** The sign the sort reads off a comparator's result.  ECMAScript's
    CompareArrayElements turns a [NaN] into [+0] before looking at it. *)
Definition Number_sign (v : Number) : Z :=
  match v with
  | Fin z => Z.sgn z
  | PosInf => 1
  | NegInf => -1
  | NaN => 0
  end.

(** ** Truthiness *)

Definition truthy_string (s : string) : bool :=
  match s with EmptyString => false | String _ _ => true end.

(** [a || b] on strings. *)
Definition string_or (a b : string) : string :=
  if truthy_string a then a else b.

(** An object reference or [null]: a [Date] object is always truthy. *)
Definition truthy_ref {A : Type} (o : option A) : bool :=
  match o with Some _ => true | None => false end.

(** An optional boolean option of the command line: [undefined] is falsy. *)
Definition truthy_flag (o : option bool) : bool :=
  match o with Some b => b | None => false end.

(** An optional string: [undefined] and the empty string are falsy. *)
Definition truthy_opt_string (o : option string) : bool :=
  match o with Some s => truthy_string s | None => false end.

(** ** Dates *)

Record Date : Type := mkDate { getTime : Z }.

Definition valueOf (d : Date) : Z := getTime d.

(** ** Errors thrown by the [RegExp] constructor *)

Record SyntaxError : Type := mkSyntaxError { message : string }.

(* ================================================================== *)
(** * The runtime and library interface *)
(* ================================================================== *)

(** [String.prototype.localeCompare] in the process's locale.  A collation
    is a total preorder on strings; the two laws are ECMAScript's
    requirements on a consistent comparator, stated on the sign of the
    result. *)
Class Collator : Type := {
  localeCompare : string -> string -> Z;
  localeCompare_antisym :
    forall a b, Z.sgn (localeCompare b a) = - Z.sgn (localeCompare a b);
  localeCompare_trans :
    forall a b c,
      localeCompare a b <= 0 -> localeCompare b c <= 0 ->
      localeCompare a c <= 0
}.

(** [date-fns-tz]'s [formatInTimeZone date timeZone pattern], the module
    constant [currentTimeZone], and
    [date.toLocaleTimeString([], {hour: "2-digit", minute: "2-digit"})]. *)
Class DateFormat : Type := {
  formatInTimeZone : Date -> string -> string -> string;
  currentTimeZone : string;
  toLocaleTimeString : Date -> string
}.

(** The regular-expression engine: [new RegExp(pattern, flags)] either
    throws a [SyntaxError] or yields a regular expression; [re.test(s)]
    on an expression without the [g] and [y] flags reads no state. *)
Class RegExpEngine : Type := {
  RegExp : Type;
  RegExp_new : string -> option string -> SyntaxError + RegExp;
  RegExp_test : RegExp -> string -> bool
}.

(* ================================================================== *)
(** * [Array.prototype.sort] *)
(* ================================================================== *)

(** ECMAScript requires the sort to be stable and, when the comparator is
    consistent, to leave the array ordered by it.  For a consistent
    comparator these two requirements determine the result
    ([Array_sort_unique] below), so the stable insertion sort written here
    is the result of every conforming engine. *)
Section ArraySort.
Context {A : Type}.
Variable comparefn : A -> A -> Number.

Definition sortCompare (x y : A) : Z := Number_sign (comparefn x y).

(** [x] stood before every element of [l]; it moves past exactly the
    elements it is strictly greater than. *)
Fixpoint sort_insert (x : A) (l : list A) : list A :=
  match l with
  | [] => [x]
  | y :: l' => if 0 <? sortCompare x y then y :: sort_insert x l' else x :: l
  end.

Definition Array_sort (l : list A) : list A := fold_right sort_insert [] l.

(** [x] does not come after [y]. *)
Definition cmp_le (x y : A) : Prop := sortCompare x y <= 0.

(** [x] and [y] compare equal. *)
Definition cmp_eqb (x y : A) : bool := sortCompare x y =? 0.

(** A consistent comparator, on the sign of its results. *)
Record Consistent : Prop := {
  consistent_antisym : forall a b, sortCompare b a = - sortCompare a b;
  consistent_trans :
    forall a b c, sortCompare a b <= 0 -> sortCompare b c <= 0 ->
                  sortCompare a c <= 0
}.
End ArraySort.

(* ================================================================== *)
(** * The data model *)
(* ================================================================== *)

Record Opts : Type := mkOpts {
  output : string;
  filter : option string;
  invert : option bool;
  caseSensitive : option bool;
  title : option string;
  includeSummary : option bool;
  includeMeta : option bool;
  includeDesc : option bool;
  debug : option bool
}.

Record EventItem : Type := mkEventItem {
  uid : option string;
  summary : string;
  description : string;
  location : string;
  start : option Date;
  end_ : option Date
}.

(** An element of the array [groupByMonth] returns. *)
Record Group : Type := mkGroup {
  groupKey : string;
  events : list EventItem
}.

(* ================================================================== *)
(** * Matcher and filter *)
(* ================================================================== *)

Section Filter.
Context `{RegExpEngine}.

(** [makeMatcher]: [null] for a missing or empty pattern, otherwise the
    compiled expression, case-insensitive unless [caseSensitive]; the
    constructor's exception is not caught. *)
Definition makeMatcher (pattern : option string) (caseSensitive : option bool)
  : SyntaxError + option RegExp :=
  match pattern with
  | None => inr None
  | Some p =>
      if negb (truthy_string p) then inr None
      else
        let flags := if truthy_flag caseSensitive then None else Some "i" in
        match RegExp_new p flags with
        | inl err => inl err
        | inr re => inr (Some re)
        end
  end.

(** The template literal [`${e.summary}\n${e.description}\n${e.location}`]. *)
Definition haystack (e : EventItem) : string :=
  summary e ++ String "010" (description e ++ String "010" (location e)).

(** [applyFilter]: the same array when there is no matcher, otherwise
    [events.filter] with the matcher's verdict, negated under [invert]. *)
Definition applyFilter (events : list EventItem) (matcher : option RegExp)
           (invert : option bool) : list EventItem :=
  match matcher with
  | None => events
  | Some re =>
      List.filter
        (fun e =>
           let hay := haystack e in
           let matched := RegExp_test re hay in
           if truthy_flag invert then negb matched else matched)
        events
  end.
End Filter.

(* ================================================================== *)
(** * Sorter *)
(* ================================================================== *)

Section Sorter.
Context `{Collator}.

(** The comparator of [sortEvents]. *)
Definition sortEvents_compare (a b : EventItem) : Number :=
  if negb (truthy_ref (start a)) && truthy_ref (start b) then Fin 1
  else if truthy_ref (start a) && negb (truthy_ref (start b)) then Fin (-1)
  else
    match start a, start b with
    | Some sa, Some sb => Fin (valueOf sa - valueOf sb)
    | _, _ =>
        Fin (localeCompare (string_or (summary a) "") (string_or (summary b) ""))
    end.

(** [sortEvents]: sorts the array it is given and returns it. *)
Definition sortEvents (events : list EventItem) : list EventItem :=
  Array_sort sortEvents_compare events.
End Sorter.

(* ================================================================== *)
(** * Grouper *)
(* ================================================================== *)

(** [groups.at(-1)]: the last element, [undefined] on an empty array. *)
Fixpoint at_last {A : Type} (l : list A) : option A :=
  match l with
  | [] => None
  | [x] => Some x
  | _ :: l' => at_last l'
  end.

(** [currentGroup.events.push(ev)], where [currentGroup] is the object that
    is the last element of [groups]: the push is seen through the array. *)
Fixpoint push_to_last (ev : EventItem) (groups : list Group) : list Group :=
  match groups with
  | [] => []
  | [g] => [mkGroup (groupKey g) (events g ++ [ev])]
  | g :: gs => g :: push_to_last ev gs
  end.

Section Grouper.
Context `{Collator} `{DateFormat}.

(** The comparator of the sort that opens [groupByMonth]. *)
Definition groupByMonth_compare (a b : EventItem) : Number :=
  let ta := match start a with Some d => Fin (getTime d) | None => PosInf end in
  let tb := match start b with Some d => Fin (getTime d) | None => PosInf end in
  if Number_strict_neq ta tb then Number_sub ta tb
  else Fin (localeCompare (string_or (summary a) "") (string_or (summary b) "")).

(** The key computed for one event in the body of the [forEach]. *)
Definition eventGroupKey (ev : EventItem) : string :=
  match start ev with
  | Some d => formatInTimeZone d currentTimeZone "MMMM yyyy"
  | None => "Unknown"
  end.

(** One iteration of the [forEach] over the array [groups]. *)
Definition groupStep (groups : list Group) (ev : EventItem) : list Group :=
  let key := eventGroupKey ev in
  let fresh :=
    match at_last groups with
    | None => true
    | Some currentGroup => negb (groupKey currentGroup =? key)%string
    end in
  let groups' := if fresh then (groups ++ [mkGroup key []])%list else groups in
  push_to_last ev groups'.

(** The [forEach] of [groupByMonth], started on the empty array. *)
Definition groupPass (events : list EventItem) : list Group :=
  fold_left groupStep events [].

(** [groupByMonth]: sorts its argument in place, then groups it.  The first
    component is the argument array as the call leaves it, the second the
    returned array of groups. *)
Definition groupByMonth (events : list EventItem)
  : list EventItem * list Group :=
  let events' := Array_sort groupByMonth_compare events in
  (events', groupPass events').
End Grouper.

(* ================================================================== *)
(** * Renderer *)
(* ================================================================== *)

(** A template literal is the concatenation of its pieces in order. *)
Definition template (pieces : list string) : string :=
  fold_right append EmptyString pieces.

Definition nl : string := String "010" EmptyString.
Definition dq : string := String "034" EmptyString.

(** [s.replaceAll(c, by)] for a one-character search string [c] and a
    replacement [by] without dollar patterns. *)
Fixpoint replaceAll (c : ascii) (by_ : string) (s : string) : string :=
  match s with
  | EmptyString => EmptyString
  | String a s' =>
      if Ascii.eqb a c then by_ ++ replaceAll c by_ s'
      else String a (replaceAll c by_ s')
  end.

Definition escapeHtml (s : string) : string :=
  if negb (truthy_string s) then EmptyString
  else
    replaceAll "'" "&#39;"
      (replaceAll "034" "&quot;"
         (replaceAll ">" "&gt;"
            (replaceAll "<" "&lt;"
               (replaceAll "&" "&amp;" s)))).

Definition css : string :=
  template [
    nl;
    "    body { font-family: -apple-system, system-ui, "; dq; "Segoe UI"; dq;
      ", Roboto, "; dq; "Helvetica Neue"; dq;
      ", Arial; margin: 1rem; color: #111; }"; nl;
    "    h1 { text-align: center; margin-bottom: 0.5rem; }"; nl;
    "    .group { margin-top: 1rem; page-break-inside: avoid; }"; nl;
    "    .group > h2 { margin-block-start: 1.2rem; margin-block-end: 0.4rem; }"; nl;
    "    .date { page-break-inside: avoid; margin-block-start: 0.4rem; margin-block-end: 0.2rem; }"; nl;
    "    .event { border-bottom: 1px solid #ddd; padding: 0.3rem 0; page-break-inside: avoid; }"; nl;
    "    .summary { font-weight: 600; }"; nl;
    "    .meta { color: #555; font-size: 0.95rem; }"; nl;
    "    .hidden { display: none; }"; nl;
    "    @media print {"; nl;
    "      body { margin: 0.4in; }"; nl;
    "      .event { page-break-inside: avoid; }"; nl;
    "    }"; nl;
    "  "
  ].

(** The class suffix [flag ? "" : "hidden"]. *)
Definition hiddenUnless (flag : option bool) : string :=
  if truthy_flag flag then EmptyString else "hidden".

Section Renderer.
Context `{Collator} `{DateFormat}.

Definition formatTime (date : option Date) : string :=
  match date with
  | None => EmptyString
  | Some d => toLocaleTimeString d
  end.

(** The constant [timeRange] of an event entry. *)
Definition timeRange (ev : EventItem) : string :=
  let start := if truthy_ref (start ev) then formatTime (start ev) else EmptyString in
  let end' := if truthy_ref (end_ ev) then formatTime (end_ ev) else EmptyString in
  if truthy_string start || truthy_string end'
  then template [start; if truthy_string end' then " – " ++ end' else EmptyString]
  else EmptyString.

(** The text of the [h3] heading of an event entry. *)
Definition dateHeading (ev : EventItem) : string :=
  match start ev with
  | Some d => formatInTimeZone d currentTimeZone "EEEE, MMMM d, yyyy hh:mm a"
  | None => "?"
  end.

(** The templates, with the function applied at the five places where the
    source calls [escapeHtml] taken as a variable: [renderHTML] below is
    the instance at [escapeHtml]; the instance at the constant empty text is
    the fixed skeleton of the document. *)
Section Templates.
Variable esc : string -> string.

(** The [div] of the description, absent for an empty description. *)
Definition descHtml_with (ev : EventItem) (opts : Opts) : string :=
  if truthy_string (description ev)
  then template ["<div class="; dq; "desc "; hiddenUnless (includeDesc opts); dq; ">";
                 esc (description ev); "</div>"]
  else EmptyString.

(** The entry of one event. *)
Definition eventHtml_with (ev : EventItem) (opts : Opts) : string :=
  let timeRange := timeRange ev in
  template [
    nl; nl;
    "        <div class="; dq; "event"; dq; ">"; nl;
    "           <h3 class="; dq; "date"; dq; ">"; dateHeading ev; "</h3>"; nl;
    "          <div class="; dq; "summary "; hiddenUnless (includeSummary opts); dq; ">";
      esc (summary ev); "</div>"; nl;
    "          <div class="; dq; "meta "; hiddenUnless (includeMeta opts); dq; ">";
      esc (location ev); " ";
      (if truthy_string timeRange then " • " ++ timeRange else EmptyString);
      "</div>"; nl;
    "          "; descHtml_with ev opts; nl;
    "        </div>"; nl;
    "      "
  ].

(** The section of one group. *)
Definition groupHtml_with (g : Group) (opts : Opts) : string :=
  let eventsHtml := String.concat nl (map (fun ev => eventHtml_with ev opts) (events g)) in
  template ["<section class="; dq; "group"; dq; "><h2>"; esc (groupKey g); "</h2>";
            eventsHtml; "</section>"].

Definition renderHTML_with (title : string) (events : list EventItem) (opts : Opts)
  : string :=
  let grouped := snd (groupByMonth events) in
  let bodyHtml := String.concat nl (map (fun g => groupHtml_with g opts) grouped) in
  template [
    "<!doctype html>"; nl;
    "<html lang="; dq; "en"; dq; ">"; nl;
    "<head>"; nl;
    "  <meta charset="; dq; "utf-8"; dq; ">"; nl;
    "  <title>"; esc title; "</title>"; nl;
    "  <meta name="; dq; "viewport"; dq; " content="; dq;
      "width=device-width,initial-scale=1"; dq; ">"; nl;
    "  <style>"; css; "</style>"; nl;
    "</head>"; nl;
    "<body>"; nl;
    "  <h1>"; esc title; "</h1>"; nl;
    "  "; bodyHtml; nl;
    "</body>"; nl;
    "</html>"
  ].
End Templates.

Definition eventHtml : EventItem -> Opts -> string := eventHtml_with escapeHtml.
Definition groupHtml : Group -> Opts -> string := groupHtml_with escapeHtml.

(** [renderHTML title events opts]. *)
Definition renderHTML : string -> list EventItem -> Opts -> string :=
  renderHTML_with escapeHtml.
End Renderer.

(* ================================================================== *)
(** * The run of the program, from the parsed events on *)
(* ================================================================== *)

(** [opts.title || "Calendar"]. *)
Definition opt_string_or (o : option string) (d : string) : string :=
  match o with
  | Some s => string_or s d
  | None => d
  end.

Section Action.
Context `{Collator} `{DateFormat} `{RegExpEngine}.

(** The body of the action of the command once the feed has been fetched
    and parsed into [events]: matcher, filter, sort, render.  An exception
    of [makeMatcher] ends the run; nothing catches it. *)
Definition action (events : list EventItem) (opts : Opts) : SyntaxError + string :=
  let made :=
    if truthy_opt_string (filter opts)
    then makeMatcher (filter opts) (caseSensitive opts)
    else inr None in
  match made with
  | inl err => inl err
  | inr matcher =>
      let filtered := applyFilter events matcher (invert opts) in
      let sorted := sortEvents filtered in
      let html := renderHTML (opt_string_or (title opts) "Calendar") sorted opts in
      inr html
  end.
End Action.

(* ================================================================== *)
(** * The rest of the program: address, fetch, parse, run *)
(* ================================================================== *)

(** ** [normalizeUrl] *)

(** The canonical form of a byte under the flag [i] of a regular expression
    without the flag [u]: an ASCII letter is compared by its upper case; a
    byte outside ASCII never equals an ASCII one. *)
Definition upperASCII (c : ascii) : ascii :=
  let n := nat_of_ascii c in
  if ((97 <=? n) && (n <=? 122))%nat then ascii_of_nat (n - 32) else c.

(** What is left of [s] after a prefix equal to [p] up to the case of
    letters, if [s] has one. *)
Fixpoint stripPrefixIgnoreCase (p s : string) : option string :=
  match p with
  | EmptyString => Some s
  | String a p' =>
      match s with
      | EmptyString => None
      | String b s' =>
          if Ascii.eqb (upperASCII a) (upperASCII b)
          then stripPrefixIgnoreCase p' s'
          else None
      end
  end.

(** [url.replace(/^webcal:/i, "https:")]: the expression is anchored and not
    global, so only a match at the start is replaced. *)
Definition replaceWebcal (url : string) : string :=
  match stripPrefixIgnoreCase "webcal:" url with
  | Some rest => "https:" ++ rest
  | None => url
  end.

Definition normalizeUrl (url : option string) : option string :=
  match url with
  | None => None
  | Some u => if negb (truthy_string u) then Some u else Some (replaceWebcal u)
  end.

(** ** Exceptions, and the text of values in a template literal *)

Inductive Exception : Type :=
| ThrowSyntaxError (err : SyntaxError)
| ThrowError (message : string)
| ThrowHost (what : string).

(** A string that may be [undefined], used as a string. *)
Definition asString (o : option string) : string :=
  match o with
  | Some s => s
  | None => "undefined"
  end.

(** A non-negative integer in a template literal. *)
Definition numberToString (n : N) : string :=
  DecimalString.NilZero.string_of_uint (N.to_uint n).

(** Computations that may throw. *)
Definition bindE {A B : Type} (c : Exception + A) (k : A -> Exception + B)
  : Exception + B :=
  match c with
  | inl e => inl e
  | inr a => k a
  end.

Declare Scope exn_scope.
Delimit Scope exn_scope with exn.
Notation "x <- c ;; k" := (bindE c (fun x => k))
  (at level 61, c at next level, right associativity) : exn_scope.

(** ** The libraries and the runtime behind the remaining functions *)

(** The response of [fetch], with the result of its [text()]. *)
Record Response : Type := mkResponse {
  ok : bool;
  status : N;
  statusText : string;
  text : Exception + string
}.

Class Network : Type := {
  fetch : string -> Exception + Response
}.

(** [ical.js] as its declaration file gives it; every call into the library
    may throw: the parser, the constructors, the search for the blocks, and
    each property of an event. *)
Class ICALjs : Type := {
  JCal : Type;
  ICALComponent : Type;
  ICALEvent : Type;
  ICALTime : Type;
  ICAL_parse : string -> Exception + JCal;
  ICAL_Component : JCal -> Exception + ICALComponent;
  getAllSubcomponents :
    ICALComponent -> string -> Exception + option (list ICALComponent);
  ICAL_Event : ICALComponent -> Exception + ICALEvent;
  Event_uid : ICALEvent -> Exception + option string;
  Event_summary : ICALEvent -> Exception + option string;
  Event_description : ICALEvent -> Exception + option string;
  Event_location : ICALEvent -> Exception + option string;
  Event_startDate : ICALEvent -> Exception + option ICALTime;
  Event_endDate : ICALEvent -> Exception + option ICALTime;
  toJSDate : ICALTime -> Exception + Date
}.

(** [path.resolve], [process.cwd()] and [fs.writeFile]. *)
Class FileSystem : Type := {
  path_resolve : string -> string -> string;
  process_cwd : string;
  fs_writeFile : string -> string -> Exception + unit
}.

(** ** [parseICal] *)

(** [vevents || []]: the array, or an empty one for a missing result. *)
Definition array_or_empty {A : Type} (found : option (list A)) : list A :=
  match found with
  | Some l => l
  | None => []
  end.

(** [xs.filter(Boolean)] on an array of objects and [null]s. *)
Fixpoint filter_Boolean {A : Type} (xs : list (option A)) : list A :=
  match xs with
  | [] => []
  | Some x :: xs' => x :: filter_Boolean xs'
  | None :: xs' => filter_Boolean xs'
  end.

Section Parse.
Context `{ICALjs}.

Local Open Scope exn_scope.

(** [date ? date.toJSDate() : null]. *)
Definition jsDateOf (date : option ICALTime) : Exception + option Date :=
  match date with
  | Some t => d <- toJSDate t ;; inr (Some d)
  | None => inr None
  end.

(** The body of the [try]: the event object and its six properties, read in
    the order the object literal names them. *)
Definition readEvent (v : ICALComponent) : Exception + EventItem :=
  ev <- ICAL_Event v ;;
  uid <- Event_uid ev ;;
  summary <- Event_summary ev ;;
  description <- Event_description ev ;;
  location <- Event_location ev ;;
  startDate <- Event_startDate ev ;;
  start <- jsDateOf startDate ;;
  endDate <- Event_endDate ev ;;
  end' <- jsDateOf endDate ;;
  inr (mkEventItem uid
         (opt_string_or summary EmptyString)
         (opt_string_or description EmptyString)
         (opt_string_or location EmptyString)
         start end').

(** The function mapped over the blocks: [null] when anything was thrown. *)
Definition decodeEvent (v : ICALComponent) : option EventItem :=
  match readEvent v with
  | inr e => Some e
  | inl _ => None
  end.

(** [vevents.map(...).filter(Boolean)]. *)
Definition decodeBlocks (vevents : list ICALComponent) : list EventItem :=
  filter_Boolean (map decodeEvent vevents).

Definition parseICal (icalText : string) : Exception + list EventItem :=
  jcal <- ICAL_parse icalText ;;
  comp <- ICAL_Component jcal ;;
  found <- getAllSubcomponents comp "vevent" ;;
  let vevents := array_or_empty found in
  inr (decodeBlocks vevents).
End Parse.

(** ** Effects *)

Section Run.
Context `{Collator} `{DateFormat} `{RegExpEngine} `{Network} `{ICALjs} `{FileSystem}.

(** The arguments of the calls of [console.debug]. *)
Inductive DebugArgs : Type :=
| DebugStarting (url : string) (opts : Opts)
| DebugFetched (icalText : string)
| DebugParsed (count : nat)
| DebugFiltered (count : nat) (matcher : option RegExp) (invert : option bool)
| DebugSorted
| DebugRendered
| DebugBlank
| DebugWrote (line : string).

(** What a run does to the world, in order: a request goes out, a line is
    printed by [console.debug] or by [console.log], [fs.writeFile] is
    called. *)
Inductive Effect : Type :=
| Fetch (url : string)
| ConsoleDebug (args : DebugArgs)
| WriteFile (path data : string)
| ConsoleLog (line : string).

(** A computation: the effects it had, and its value or what it threw. *)
Definition IO (A : Type) : Type := list Effect * (Exception + A).

Definition retIO {A : Type} (a : A) : IO A := ([], inr a).

Definition bindIO {A B : Type} (c : IO A) (k : A -> IO B) : IO B :=
  match c with
  | (t, inl e) => (t, inl e)
  | (t, inr a) => let '(t', r) := k a in ((t ++ t')%list, r)
  end.

Definition emit (e : Effect) : IO unit := ([e], inr tt).

Definition liftIO {A : Type} (r : Exception + A) : IO A := ([], r).

Definition throwIO {A : Type} (e : Exception) : IO A := ([], inl e).

Declare Scope io_scope.
Delimit Scope io_scope with io.
Notation "x <- c ;; k" := (bindIO c (fun x => k))
  (at level 61, c at next level, right associativity) : io_scope.
Notation "c ;; k" := (bindIO c (fun _ => k))
  (at level 61, right associativity) : io_scope.

Local Open Scope io_scope.

(** ** [fetchICal] *)

Definition fetchICal (url : string) : IO string :=
  let normalized := asString (normalizeUrl (Some url)) in
  res <- (emit (Fetch normalized) ;; liftIO (fetch normalized)) ;;
  if negb (ok res)
  then throwIO (ThrowError
                  (template ["Failed to fetch "; normalized; ": ";
                             numberToString (status res); " "; statusText res]))
  else liftIO (text res).

(** ** The action of the command *)

(** [console.debug]: the action replaces it by a function that does nothing
    unless the option [debug] is set. *)
Definition console_debug (opts : Opts) (args : DebugArgs) : IO unit :=
  if truthy_flag (debug opts) then emit (ConsoleDebug args) else retIO tt.

(** The path the document is written to. *)
Definition outPath (opts : Opts) : string :=
  path_resolve (template [process_cwd; "/output"])
               (string_or (output opts) "calendar.html").

Definition matcherOf (opts : Opts) : Exception + option RegExp :=
  match (if truthy_opt_string (filter opts)
         then makeMatcher (filter opts) (caseSensitive opts)
         else inr None) with
  | inl err => inl (ThrowSyntaxError err)
  | inr matcher => inr matcher
  end.

(** The whole action: fetch, parse, filter, sort, render, write, report. *)
Definition program_action (url : string) (opts : Opts) : IO unit :=
  console_debug opts (DebugStarting url opts) ;;
  icalText <- fetchICal url ;;
  console_debug opts (DebugFetched icalText) ;;
  events <- liftIO (parseICal icalText) ;;
  console_debug opts (DebugParsed (List.length events)) ;;
  matcher <- liftIO (matcherOf opts) ;;
  let filtered := applyFilter events matcher (invert opts) in
  console_debug opts (DebugFiltered (List.length filtered) matcher (invert opts)) ;;
  let sorted := sortEvents filtered in
  console_debug opts DebugSorted ;;
  let html := renderHTML (opt_string_or (title opts) "Calendar") sorted opts in
  console_debug opts DebugRendered ;;
  emit (WriteFile (outPath opts) html) ;;
  liftIO (fs_writeFile (outPath opts) html) ;;
  (if truthy_flag (debug opts) then console_debug opts DebugBlank else retIO tt) ;;
  console_debug opts
    (DebugWrote
       (template ["Wrote "; numberToString (N.of_nat (List.length filtered));
                  " of "; numberToString (N.of_nat (List.length events));
                  " events from "; url])) ;;
  emit (ConsoleLog (outPath opts)).
End Run.

(** ** A small world for the run *)

(** One feed behind one address, made of blocks that either decode to an
    event or are malformed; a file system that accepts every write. *)
Module ToyWorld.

Definition feedAddress : string := "https://example.org/cal.ics".
Definition feedBody : string := "BEGIN:VCALENDAR".

#[export] Instance network : Network := {
  fetch url :=
    if (url =? feedAddress)%string
    then inr (mkResponse true 200 "OK" (inr feedBody))
    else inr (mkResponse false 404 "Not Found" (inr EmptyString))
}.

Inductive Comp : Type :=
| Calendar (blocks : list (option EventItem))
| Block (decoded : option EventItem).

Definition nonEmpty (s : string) : option string :=
  if truthy_string s then Some s else None.

Section Feed.
Variable feed : list (option EventItem).

Definition ical : ICALjs := {|
  JCal := unit;
  ICALComponent := Comp;
  ICALEvent := EventItem;
  ICALTime := Date;
  ICAL_parse := fun t =>
    if (t =? feedBody)%string then inr tt
    else inl (ThrowHost "invalid ical body");
  ICAL_Component := fun _ => inr (Calendar feed);
  getAllSubcomponents := fun c _ =>
    match c with
    | Calendar blocks => inr (Some (map Block blocks))
    | Block _ => inr None
    end;
  ICAL_Event := fun c =>
    match c with
    | Block (Some e) => inr e
    | _ => inl (ThrowHost "malformed block")
    end;
  Event_uid := fun e => inr (uid e);
  Event_summary := fun e => inr (nonEmpty (summary e));
  Event_description := fun e => inr (nonEmpty (description e));
  Event_location := fun e => inr (nonEmpty (location e));
  Event_startDate := fun e => inr (start e);
  Event_endDate := fun e => inr (end_ e);
  toJSDate := fun d => inr d
|}.
End Feed.

#[export] Instance files : FileSystem := {
  path_resolve base file := template [base; "/"; file];
  process_cwd := "/home/user";
  fs_writeFile _ _ := inr tt
}.

End ToyWorld.

(* ================================================================== *)
(** * A reference runtime *)
(* ================================================================== *)

(** One concrete runtime, so that the model runs: strings are collated by
    their bytes, dates are printed in English for the time zone UTC, and
    the regular-expression engine knows literal patterns only. *)
Module Reference.

(** ** Collation by bytes *)

Definition ordinalCompare (a b : string) : Z :=
  match String.compare a b with
  | Lt => -1
  | Eq => 0
  | Gt => 1
  end.

(** ** Dates in UTC *)

Definition msPerDay : Z := 86400000.

(** Year, month (1 to 12) and day of the month of a day number counted from
    1970-01-01, in the proleptic Gregorian calendar. *)
Definition civilFromDays (days : Z) : Z * Z * Z :=
  let z := days + 719468 in
  let era := z / 146097 in
  let doe := z - era * 146097 in
  let yoe := (doe - doe / 1460 + doe / 36524 - doe / 146096) / 365 in
  let y := yoe + era * 400 in
  let doy := doe - (365 * yoe + yoe / 4 - yoe / 100) in
  let mp := (5 * doy + 2) / 153 in
  let d := doy - (153 * mp + 2) / 5 + 1 in
  let m := if mp <? 10 then mp + 3 else mp - 9 in
  (if m <=? 2 then y + 1 else y, m, d).

Definition monthNames : list string :=
  ["January"; "February"; "March"; "April"; "May"; "June"; "July";
   "August"; "September"; "October"; "November"; "December"].

Definition dayNames : list string :=
  ["Sunday"; "Monday"; "Tuesday"; "Wednesday"; "Thursday"; "Friday"; "Saturday"].

Definition monthName (m : Z) : string := nth (Z.to_nat (m - 1)) monthNames "December".

Definition dayName (days : Z) : string :=
  nth (Z.to_nat ((days + 4) mod 7)) dayNames "Saturday".

Definition decimal (n : Z) : string :=
  DecimalString.NilZero.string_of_uint (N.to_uint (Z.to_N n)).

(** [n] in decimal, padded with zeros to at least [width] digits. *)
Fixpoint padZeros (width : nat) (s : string) : string :=
  match width with
  | O => s
  | S w => if (String.length s <=? w)%nat then padZeros w (String "0" s) else s
  end.

Definition twoDigits (n : Z) : string := padZeros 2 (decimal n).
Definition fourDigits (n : Z) : string := padZeros 4 (decimal n).

(** The hour of a twelve-hour clock, and its half of the day. *)
Definition hour12 (h : Z) : Z := if h mod 12 =? 0 then 12 else h mod 12.
Definition meridiem (h : Z) : string := if h <? 12 then "AM" else "PM".

Definition clock (d : Date) : string :=
  let ms := getTime d mod msPerDay in
  let h := ms / 3600000 in
  let mi := (ms / 60000) mod 60 in
  twoDigits (hour12 h) ++ ":" ++ twoDigits mi ++ " " ++ meridiem h.

Definition monthYear (d : Date) : string :=
  let '(y, m, _) := civilFromDays (getTime d / msPerDay) in
  monthName m ++ " " ++ fourDigits y.

Definition fullDate (d : Date) : string :=
  let days := getTime d / msPerDay in
  let '(y, m, dd) := civilFromDays days in
  dayName days ++ ", " ++ monthName m ++ " " ++ decimal dd ++ ", "
    ++ fourDigits y ++ " " ++ clock d.

(** The two patterns the program uses; any other pattern is left as it is. *)
Definition formatUTC (d : Date) (timeZone pattern : string) : string :=
  if (pattern =? "MMMM yyyy")%string then monthYear d
  else if (pattern =? "EEEE, MMMM d, yyyy hh:mm a")%string then fullDate d
  else pattern.

#[export] Instance utcFormat : DateFormat := {
  formatInTimeZone := formatUTC;
  currentTimeZone := "UTC";
  toLocaleTimeString := clock
}.

(** ** Literal regular expressions *)

Record LiteralRegExp : Type := mkLiteralRegExp {
  source : string;
  ignoreCase : bool
}.

Definition isLiteralChar (c : ascii) : bool :=
  let n := nat_of_ascii c in
  ((48 <=? n) && (n <=? 57) || (65 <=? n) && (n <=? 90)
   || (97 <=? n) && (n <=? 122) || (n =? 32))%nat.

Fixpoint allChars (p : ascii -> bool) (s : string) : bool :=
  match s with
  | EmptyString => true
  | String c s' => p c && allChars p s'
  end.

Definition lowerChar (c : ascii) : ascii :=
  let n := nat_of_ascii c in
  if ((65 <=? n) && (n <=? 90))%nat then ascii_of_nat (n + 32) else c.

Fixpoint lower (s : string) : string :=
  match s with
  | EmptyString => EmptyString
  | String c s' => String (lowerChar c) (lower s')
  end.

Definition flagsText (flags : option string) : string :=
  match flags with Some f => f | None => EmptyString end.

(** A pattern of letters, digits and spaces denotes itself; this engine
    rejects every other pattern, naming it the way V8 does. *)
Definition literalNew (pattern : string) (flags : option string)
  : SyntaxError + LiteralRegExp :=
  if allChars isLiteralChar pattern
  then inr (mkLiteralRegExp pattern
              (match flags with Some f => (f =? "i")%string | None => false end))
  else inl (mkSyntaxError
              ("Invalid regular expression: /" ++ pattern ++ "/" ++ flagsText flags
                 ++ ": unsupported syntax")).

Definition contains (needle hay : string) : bool :=
  match String.index 0 needle hay with
  | Some _ => true
  | None => false
  end.

Definition literalTest (re : LiteralRegExp) (s : string) : bool :=
  if ignoreCase re then contains (lower (source re)) (lower s)
  else contains (source re) s.

#[export] Instance literalEngine : RegExpEngine := {
  RegExp := LiteralRegExp;
  RegExp_new := literalNew;
  RegExp_test := literalTest
}.

End Reference.

(* ================================================================== *)
(** * The vocabulary of the properties *)
(* ================================================================== *)

(** ** Lists *)

(** [l1] is [l2] with some elements left out, the others in place. *)
Inductive Subseq {A : Type} : list A -> list A -> Prop :=
| Subseq_nil : Subseq [] []
| Subseq_keep x l1 l2 : Subseq l1 l2 -> Subseq (x :: l1) (x :: l2)
| Subseq_drop x l1 l2 : Subseq l1 l2 -> Subseq l1 (x :: l2).

(** ** Orders on events *)

Section Orders.
Context `{Collator}.

(** The order the specification words in three rules: an event without a
    start comes after one with a start; two events without a start are
    ordered by the locale comparison of their summaries; two events with a
    start are ordered by their instants. *)
Definition threeRuleOrder (a b : EventItem) : Prop :=
  match start a, start b with
  | Some _, None => True
  | None, Some _ => False
  | None, None => localeCompare (summary a) (summary b) <= 0
  | Some sa, Some sb => getTime sa <= getTime sb
  end.

(** Ascending instants, an absent start after every present one, and equal
    instants (or two absent starts) ordered by the summaries. *)
Definition grouperOrder (a b : EventItem) : Prop :=
  match start a, start b with
  | Some _, None => True
  | None, Some _ => False
  | None, None => localeCompare (summary a) (summary b) <= 0
  | Some sa, Some sb =>
      getTime sa < getTime sb
      \/ (getTime sa = getTime sb /\ localeCompare (summary a) (summary b) <= 0)
  end.

(** The instants of the events that have a start. *)
Definition presentStarts (l : list EventItem) : list Z :=
  flat_map (fun e => match start e with Some d => [getTime d] | None => [] end) l.

End Orders.

(** ** Groups *)

Section Chunks.
Context `{DateFormat}.

(** What the pass has built after the events [evs]: the groups hold [evs]
    in order, no group is empty, every event carries the key of its group,
    and two neighbouring groups never have the same key. *)
Record Chunked (gs : list Group) (evs : list EventItem) : Prop := {
  chunked_concat : List.concat (map events gs) = evs;
  chunked_groups :
    Forall (fun g => events g <> []
                     /\ Forall (fun e => eventGroupKey e = groupKey g) (events g)) gs;
  chunked_adjacent : Sorted (fun g g' => groupKey g <> groupKey g') gs
}.

End Chunks.

(** ** Text *)

(** What escaping does to one character. *)
Definition escapeChar (c : ascii) : string :=
  if Ascii.eqb c "&" then "&amp;"
  else if Ascii.eqb c "<" then "&lt;"
  else if Ascii.eqb c ">" then "&gt;"
  else if Ascii.eqb c "034" then "&quot;"
  else if Ascii.eqb c "'" then "&#39;"
  else String c EmptyString.

Fixpoint escapeChars (s : string) : string :=
  match s with
  | EmptyString => EmptyString
  | String c s' => escapeChar c ++ escapeChars s'
  end.

(** The number of occurrences of a character. *)
Fixpoint countChar (c : ascii) (s : string) : nat :=
  match s with
  | EmptyString => 0%nat
  | String a s' => ((if Ascii.eqb a c then 1 else 0) + countChar c s')%nat
  end.

Fixpoint startsWith (p s : string) : bool :=
  match p, s with
  | EmptyString, _ => true
  | String _ _, EmptyString => false
  | String a p', String b s' => Ascii.eqb a b && startsWith p' s'
  end.



(** An element with a class attribute, as the templates write it. *)
Definition element (tag class body : string) : string :=
  template ["<"; tag; " class="; dq; class; dq; ">"; body; "</"; tag; ">"].

Section MetaText.
Context `{DateFormat}.

(** The text after the location in the [meta] element. *)
Definition timeRangeSuffix (ev : EventItem) : string :=
  if truthy_string (timeRange ev) then " • " ++ timeRange ev else EmptyString.

End MetaText.

(** ** Errors *)


(** ** Sample events and options *)

(** 2025-03-03T11:06:40Z and one hour later. *)
Definition march3 : Date := mkDate 1741000000000.
Definition march3_later : Date := mkDate 1741003600000.

Definition alpha : EventItem :=
  mkEventItem None "Alpha" EmptyString EmptyString (Some march3) None.
Definition beta : EventItem :=
  mkEventItem None "Beta" EmptyString EmptyString (Some march3) None.
Definition game : EventItem :=
  mkEventItem (Some "u1") "Big <Game>" "bring & share" "Field 1"
              (Some march3) (Some march3_later).
Definition practice : EventItem :=
  mkEventItem (Some "u2") "Practice" EmptyString "Gym" (Some march3_later) None.
Definition someday : EventItem :=
  mkEventItem (Some "u3") "Someday" EmptyString EmptyString None None.
Definition endOnly : EventItem :=
  mkEventItem None "Open house" EmptyString EmptyString None (Some march3).

Definition defaultOpts : Opts :=
  mkOpts "calendar.html" None (Some false) (Some false) (Some "Calendar")
         (Some false) (Some true) (Some false) (Some false).

Definition withFilter (p : string) (inv : bool) : Opts :=
  mkOpts "calendar.html" (Some p) (Some inv) (Some false) (Some "Calendar")
         (Some false) (Some true) (Some false) (Some false).

(** ** Selecting events *)

(** The event starts at the instant [t]. *)
Definition startsAt (t : Z) (e : EventItem) : bool :=
  match start e with
  | Some d => getTime d =? t
  | None => false
  end.

(** ** Reading escaped text back *)

(** The inverse of escaping: each of the five character references gives
    its character back; [skip] counts the rest of a reference just read. *)
Fixpoint unescapeFrom (skip : nat) (s : string) : string :=
  match s with
  | EmptyString => EmptyString
  | String a s' =>
      match skip with
      | S k => unescapeFrom k s'
      | O =>
          if Ascii.eqb a "&" then
            if startsWith "amp;" s' then String "&" (unescapeFrom 4 s')
            else if startsWith "lt;" s' then String "<" (unescapeFrom 3 s')
            else if startsWith "gt;" s' then String ">" (unescapeFrom 3 s')
            else if startsWith "quot;" s' then String "034" (unescapeFrom 5 s')
            else if startsWith "#39;" s' then String "'" (unescapeFrom 4 s')
            else String a (unescapeFrom 0 s')
          else String a (unescapeFrom 0 s')
      end
  end.

Definition unescapeHtml (s : string) : string := unescapeFrom 0 s.

(** By how many characters escaping lengthens a text. *)
Definition escapeGrowth (s : string) : nat :=
  (4 * countChar "&" s + 3 * countChar "<" s + 3 * countChar ">" s
   + 5 * countChar "034" s + 4 * countChar "'" s)%nat.

(** ** Addresses *)

(** The address has the scheme [webcal:], in any case of its letters. *)
Definition hasWebcalScheme (url : string) : bool :=
  match stripPrefixIgnoreCase "webcal:" url with
  | Some _ => true
  | None => false
  end.

(** ** Reading a trace *)

Section Traces.
Context `{RegExpEngine}.

(** The requests sent, the files written and the lines printed by
    [console.log], each in order. *)
Fixpoint fetchesOf (t : list Effect) : list string :=
  match t with
  | [] => []
  | Fetch u :: t' => u :: fetchesOf t'
  | _ :: t' => fetchesOf t'
  end.

Fixpoint writesOf (t : list Effect) : list (string * string) :=
  match t with
  | [] => []
  | WriteFile p d :: t' => (p, d) :: writesOf t'
  | _ :: t' => writesOf t'
  end.

Fixpoint logsOf (t : list Effect) : list string :=
  match t with
  | [] => []
  | ConsoleLog l :: t' => l :: logsOf t'
  | _ :: t' => logsOf t'
  end.

End Traces.

Section MoreTraces.
Context `{RegExpEngine}.

(** The calls of [console.debug] that printed something. *)
Fixpoint debugsOf (t : list Effect) : list DebugArgs :=
  match t with
  | [] => []
  | ConsoleDebug a :: t' => a :: debugsOf t'
  | _ :: t' => debugsOf t'
  end.

End MoreTraces.

(** ** Feeds whose order does not matter *)

(** No two events of the list have the same start together with summaries
    that compare equal (for two events without a start: summaries that
    compare equal). *)
Definition distinguishable `{Collator} (evs : list EventItem) : Prop :=
  ForallOrdPairs (fun a b => cmp_eqb groupByMonth_compare a b = false) evs.

(** ** The markup of the document *)





(* ################################################################## *)
(** * Properties *)
(* ################################################################## *)

(* ================================================================== *)
(** * Facts about [Array.prototype.sort] *)
(* ================================================================== *)

Section ArraySortFacts.
Context {A : Type}.
Variable comparefn : A -> A -> Number.

Local Abbreviation insert := (sort_insert comparefn).
Local Abbreviation sort := (Array_sort comparefn).
Local Abbreviation le := (cmp_le comparefn).
Local Abbreviation eqv := (cmp_eqb comparefn).
Local Abbreviation sc := (sortCompare comparefn).

Lemma sort_insert_perm (x : A) (l : list A) : Permutation (insert x l) (x :: l).
Proof.
  induction l as [|y l IH]; simpl.
  - apply Permutation_refl.
  - destruct (0 <? sc x y).
    + apply Permutation_trans with (y :: x :: l).
      * now apply perm_skip.
      * apply perm_swap.
    + apply Permutation_refl.
Qed.

Lemma Array_sort_perm (l : list A) : Permutation (sort l) l.
Proof.
  induction l as [|x l IH]; simpl.
  - apply perm_nil.
  - apply Permutation_trans with (x :: sort l).
    + apply sort_insert_perm.
    + now apply perm_skip.
Qed.

(** An array that is already in order is left as it is; this needs no
    assumption on the comparator. *)
Lemma Array_sort_sorted_id (l : list A) : Sorted le l -> sort l = l.
Proof.
  induction 1 as [|x l Hs IH Hhd]; simpl.
  - reflexivity.
  - rewrite IH. destruct Hhd as [|y l Hxy]; simpl.
    + reflexivity.
    + unfold cmp_le in Hxy.
      destruct (Z.ltb_spec 0 (sc x y)); [lia | reflexivity].
Qed.

Section ConsistentComparator.
Hypothesis consistent : Consistent comparefn.

Lemma sc_refl (a : A) : sc a a = 0.
Proof. pose proof (consistent_antisym _ consistent a a). lia. Qed.

Lemma eqv_sym (a b : A) : eqv a b = eqv b a.
Proof.
  unfold cmp_eqb. pose proof (consistent_antisym _ consistent a b).
  destruct (Z.eqb_spec (sc a b) 0), (Z.eqb_spec (sc b a) 0); try reflexivity; lia.
Qed.

Lemma eqv_trans (a b c : A) : eqv a b = true -> eqv b c = true -> eqv a c = true.
Proof.
  unfold cmp_eqb. rewrite !Z.eqb_eq. intros Hab Hbc.
  pose proof (consistent_antisym _ consistent a b).
  pose proof (consistent_antisym _ consistent b c).
  pose proof (consistent_antisym _ consistent a c).
  assert (sc a c <= 0) by (apply (consistent_trans _ consistent a b c); lia).
  assert (sc c a <= 0) by (apply (consistent_trans _ consistent c b a); lia).
  lia.
Qed.

Lemma sort_insert_sorted (x : A) (l : list A) :
  StronglySorted le l -> StronglySorted le (insert x l).
Proof.
  induction 1 as [|y l Hs IH Hall]; simpl.
  - constructor; constructor.
  - destruct (Z.ltb_spec 0 (sc x y)) as [Hgt | Hle].
    + constructor; [exact IH|].
      apply (Permutation_Forall (Permutation_sym (sort_insert_perm x l))).
      constructor; [|exact Hall].
      unfold cmp_le. pose proof (consistent_antisym _ consistent x y). lia.
    + constructor; [now constructor|].
      constructor; [exact Hle|].
      eapply Forall_impl; [|exact Hall].
      intros z Hyz. exact (consistent_trans _ consistent x y z Hle Hyz).
Qed.

Lemma Array_sort_sorted (l : list A) : StronglySorted le (sort l).
Proof.
  induction l as [|x l IH]; simpl.
  - constructor.
  - now apply sort_insert_sorted.
Qed.

(** Stability: the elements that compare equal to a given one keep their
    order. *)
Lemma sort_insert_stable (z x : A) (l : list A) :
  List.filter (eqv z) (insert x l) = List.filter (eqv z) (x :: l).
Proof.
  induction l as [|y l IH].
  - reflexivity.
  - simpl sort_insert. destruct (Z.ltb_spec 0 (sc x y)) as [Hgt | Hle].
    + simpl List.filter at 1. rewrite IH. simpl.
      destruct (eqv z x) eqn:Hzx, (eqv z y) eqn:Hzy; try reflexivity.
      exfalso. rewrite eqv_sym in Hzx.
      pose proof (eqv_trans _ _ _ Hzx Hzy) as Hxy.
      unfold cmp_eqb in Hxy. apply Z.eqb_eq in Hxy. lia.
    + reflexivity.
Qed.

Lemma Array_sort_stable (z : A) (l : list A) :
  List.filter (eqv z) (sort l) = List.filter (eqv z) l.
Proof.
  induction l as [|x l IH].
  - reflexivity.
  - simpl Array_sort. rewrite sort_insert_stable. simpl. now rewrite IH.
Qed.

(** Two ordered arrangements with the same classes of equal elements, each
    class in the same order, are the same list. *)
Lemma sorted_stable_unique (l1 : list A) :
  forall l2,
    StronglySorted le l1 -> StronglySorted le l2 ->
    (forall z, List.filter (eqv z) l1 = List.filter (eqv z) l2) ->
    l1 = l2.
Proof.
  induction l1 as [|a l1 IH]; intros l2 H1 H2 Hf.
  - destruct l2 as [|b l2]; [reflexivity|].
    specialize (Hf b). simpl in Hf. unfold cmp_eqb in Hf at 1.
    rewrite sc_refl in Hf. discriminate.
  - destruct l2 as [|b l2].
    + specialize (Hf a). simpl in Hf. unfold cmp_eqb in Hf at 1.
      rewrite sc_refl in Hf. discriminate.
    + apply StronglySorted_inv in H1 as [H1 Ha].
      apply StronglySorted_inv in H2 as [H2 Hb].
      assert (Hin : forall z (l l' : list A),
                 List.filter (eqv z) l = List.filter (eqv z) l' ->
                 forall y, In y l -> eqv z y = true -> In y l').
      { intros z l l' E y Hy Hzy.
        assert (In y (List.filter (eqv z) l)) as Hy' by (apply filter_In; auto).
        rewrite E in Hy'. now apply filter_In in Hy'. }
      assert (Hab : eqv a b = true).
      { assert (le a b) as Lab.
        { assert (In b (a :: l1)) as [->|Hb1].
          { apply (Hin b (b :: l2) (a :: l1)); [now rewrite Hf | now left |].
            unfold cmp_eqb. now rewrite sc_refl. }
          - unfold cmp_le. rewrite sc_refl. lia.
          - rewrite Forall_forall in Ha. now apply Ha. }
        assert (le b a) as Lba.
        { assert (In a (b :: l2)) as [->|Ha2].
          { apply (Hin a (a :: l1) (b :: l2)); [now rewrite Hf | now left |].
            unfold cmp_eqb. now rewrite sc_refl. }
          - unfold cmp_le. rewrite sc_refl. lia.
          - rewrite Forall_forall in Hb. now apply Hb. }
        unfold cmp_le in *. unfold cmp_eqb.
        pose proof (consistent_antisym _ consistent a b).
        apply Z.eqb_eq. lia. }
      assert (a = b) as <-.
      { pose proof (Hf a) as Hfa. simpl in Hfa.
        rewrite Hab in Hfa. unfold cmp_eqb in Hfa at 1.
        rewrite sc_refl in Hfa. simpl in Hfa. now injection Hfa. }
      f_equal. apply IH; auto.
      intros z. specialize (Hf z). simpl in Hf.
      destruct (eqv z a); [now injection Hf | exact Hf].
Qed.

(** The result of the sort is the only ordered, stable arrangement of the
    array: whatever algorithm an engine runs, this is what it returns. *)
Lemma Array_sort_unique (l l' : list A) :
  StronglySorted le l' ->
  (forall z, List.filter (eqv z) l' = List.filter (eqv z) l) ->
  l' = sort l.
Proof.
  intros Hs Hf. apply sorted_stable_unique; auto.
  - apply Array_sort_sorted.
  - intros z. now rewrite Hf, Array_sort_stable.
Qed.
End ConsistentComparator.
End ArraySortFacts.

(* ================================================================== *)
(** * Matcher and filter: properties *)
(* ================================================================== *)

Lemma Subseq_refl {A : Type} (l : list A) : Subseq l l.
Proof. induction l; constructor; assumption. Qed.

Lemma Subseq_filter {A : Type} (p : A -> bool) (l : list A) :
  Subseq (List.filter p l) l.
Proof.
  induction l as [|x l IH]; simpl.
  - constructor.
  - destruct (p x); constructor; assumption.
Qed.

Lemma Subseq_In {A : Type} (l1 l2 : list A) :
  Subseq l1 l2 -> forall x, In x l1 -> In x l2.
Proof.
  induction 1 as [|y l1 l2 _ IH|y l1 l2 _ IH]; intros x Hx.
  - exact Hx.
  - destruct Hx as [->|Hx]; [now left | right; auto].
  - right; auto.
Qed.

Lemma append_nil_r (s : string) : s ++ EmptyString = s.
Proof. induction s as [|a s IH]; simpl; congruence. Qed.

Lemma append_assoc (s1 s2 s3 : string) : s1 ++ (s2 ++ s3) = (s1 ++ s2) ++ s3.
Proof. induction s1 as [|a s1 IH]; simpl; congruence. Qed.

Section FilterFacts.
Context `{RegExpEngine}.

Lemma applyFilter_keeps (evs : list EventItem) (re : RegExp) (inv : option bool) :
  applyFilter evs (Some re) inv =
  List.filter
    (fun e => Bool.eqb (RegExp_test re (haystack e)) (negb (truthy_flag inv))) evs.
Proof.
  unfold applyFilter. apply filter_ext. intros e.
  destruct (truthy_flag inv), (RegExp_test re (haystack e)); reflexivity.
Qed.

Lemma haystack_template (e : EventItem) :
  haystack e = template [summary e; nl; description e; nl; location e].
Proof.
  unfold haystack, template, nl. cbn [fold_right].
  rewrite append_nil_r. reflexivity.
Qed.

(** C1, amended: without a matcher the filter returns the events as they are; with
    one, it keeps, in place, exactly the events on whose haystack (summary,
    description and location joined by line feeds, in that order) the
    verdict of the expression is positive, or negative under [invert]; and
    [makeMatcher] yields no matcher for a missing or empty pattern and
    otherwise compiles the pattern with the flag [i] unless
    [caseSensitive] is set.  An empty pattern is no pattern. *)
Theorem filter_stage_correct :
  forall (evs : list EventItem) (inv cs : option bool),
    applyFilter evs None inv = evs
    /\ (forall re,
           applyFilter evs (Some re) inv =
           List.filter
             (fun e => Bool.eqb (RegExp_test re (haystack e))
                                (negb (truthy_flag inv))) evs)
    /\ (forall re e,
           In e (applyFilter evs (Some re) inv) <->
           In e evs /\ RegExp_test re (haystack e) = negb (truthy_flag inv))
    /\ (forall e,
           haystack e = template [summary e; nl; description e; nl; location e])
    /\ makeMatcher None cs = inr None
    /\ makeMatcher (Some EmptyString) cs = inr None
    /\ (forall c p,
           makeMatcher (Some (String c p)) cs =
           match RegExp_new (String c p)
                            (if truthy_flag cs then None else Some "i") with
           | inl err => inl err
           | inr re => inr (Some re)
           end).
Proof.
  intros evs inv cs.
  split; [reflexivity|].
  split; [intros re; apply applyFilter_keeps|].
  split.
  { intros re e. rewrite applyFilter_keeps, filter_In.
    destruct (RegExp_test re (haystack e)), (truthy_flag inv); simpl;
      intuition congruence. }
  split; [exact haystack_template|].
  repeat split.
Qed.

(** C9: whatever the matcher and the [invert] flag, the filtered array is
    the input with some events left out: the events kept are input events,
    as they were, in the order they had. *)
Theorem applyFilter_subsequence :
  forall (evs : list EventItem) (matcher : option RegExp) (inv : option bool),
    Subseq (applyFilter evs matcher inv) evs
    /\ (forall e, In e (applyFilter evs matcher inv) -> In e evs).
Proof.
  intros evs matcher inv.
  assert (Hsub : Subseq (applyFilter evs matcher inv) evs).
  { destruct matcher as [re|]; simpl.
    - apply Subseq_filter.
    - apply Subseq_refl. }
  split; [exact Hsub | exact (Subseq_In _ _ Hsub)].
Qed.
End FilterFacts.

(* ================================================================== *)
(** * Sorter: properties *)
(* ================================================================== *)

Lemma string_or_empty (s : string) : string_or s EmptyString = s.
Proof. now destruct s. Qed.

Lemma StronglySorted_nth_error {A : Type} (R : A -> A -> Prop) (l : list A) :
  StronglySorted R l ->
  forall i j a b,
    (i < j)%nat -> nth_error l i = Some a -> nth_error l j = Some b -> R a b.
Proof.
  induction 1 as [|x l _ IH Hall]; intros i j a b Hij Hi Hj.
  - destruct i; discriminate.
  - destruct j as [|j]; [lia|]. simpl in Hj. destruct i as [|i]; simpl in Hi.
    + injection Hi as <-. rewrite Forall_forall in Hall.
      apply Hall. eapply nth_error_In; eauto.
    + apply (IH i j); auto. lia.
Qed.

Lemma StronglySorted_impl {A : Type} (R R' : A -> A -> Prop) (l : list A) :
  (forall a b, R a b -> R' a b) -> StronglySorted R l -> StronglySorted R' l.
Proof.
  intros HR. induction 1 as [|x l _ IH Hall]; constructor; auto.
  eapply Forall_impl; [|exact Hall]. auto.
Qed.

Section SorterFacts.
Context `{Collator}.

Lemma sortEvents_compare_le (a b : EventItem) :
  cmp_le sortEvents_compare a b <-> threeRuleOrder a b.
Proof.
  unfold cmp_le, sortCompare, sortEvents_compare, threeRuleOrder, valueOf.
  destruct (start a) as [sa|], (start b) as [sb|]; simpl;
    rewrite ?string_or_empty; lia.
Qed.

Lemma sortEvents_compare_consistent : Consistent sortEvents_compare.
Proof.
  split.
  - intros a b. unfold sortCompare, sortEvents_compare, valueOf.
    destruct (start a) as [sa|], (start b) as [sb|]; simpl; try lia.
    apply localeCompare_antisym.
  - intros a b c. fold (cmp_le sortEvents_compare a b).
    fold (cmp_le sortEvents_compare b c). fold (cmp_le sortEvents_compare a c).
    rewrite !sortEvents_compare_le. unfold threeRuleOrder.
    destruct (start a) as [sa|], (start b) as [sb|], (start c) as [sc|];
      try tauto; try lia.
    apply localeCompare_trans.
Qed.

Lemma sortEvents_strongly_sorted (evs : list EventItem) :
  StronglySorted threeRuleOrder (sortEvents evs).
Proof.
  apply StronglySorted_impl with (R := cmp_le sortEvents_compare).
  - intros a b. apply sortEvents_compare_le.
  - apply Array_sort_sorted, sortEvents_compare_consistent.
Qed.

(** C2: the array [sortEvents] returns holds the same events, and any two
    of its events, the adjacent ones in particular, stand in the order of
    the three rules; so no event without a start comes before an event
    with one. *)
Theorem sortEvents_sorted :
  forall events : list EventItem,
    let sorted := sortEvents events in
    Permutation sorted events
    /\ (forall a b, cmp_le sortEvents_compare a b <-> threeRuleOrder a b)
    /\ StronglySorted threeRuleOrder sorted
    /\ Sorted threeRuleOrder sorted
    /\ (forall i j a b,
           (i < j)%nat ->
           nth_error sorted i = Some a -> nth_error sorted j = Some b ->
           start a = None -> start b = None).
Proof.
  intros events sorted.
  pose proof (sortEvents_strongly_sorted events) as Hs. fold sorted in Hs.
  split; [apply Array_sort_perm|].
  split; [apply sortEvents_compare_le|].
  split; [exact Hs|].
  split; [now apply StronglySorted_Sorted|].
  intros i j a b Hij Hi Hj Ha.
  pose proof (StronglySorted_nth_error _ _ Hs i j a b Hij Hi Hj) as Hab.
  unfold threeRuleOrder in Hab. rewrite Ha in Hab.
  destruct (start b); [contradiction | reflexivity].
Qed.
End SorterFacts.

(* ================================================================== *)
(** * Grouper: properties *)
(* ================================================================== *)

Lemma at_last_app {A : Type} (l : list A) (x : A) : at_last (l ++ [x]) = Some x.
Proof.
  induction l as [|y l IH]; simpl.
  - reflexivity.
  - rewrite IH. destruct l; reflexivity.
Qed.

Lemma push_to_last_app (ev : EventItem) (gs : list Group) (g : Group) :
  push_to_last ev (gs ++ [g]) = (gs ++ [mkGroup (groupKey g) (events g ++ [ev])])%list.
Proof.
  induction gs as [|g' gs IH]; simpl.
  - reflexivity.
  - rewrite IH. destruct gs; reflexivity.
Qed.

(** Adjacent elements are related: [Sorted R] read at the end of the list. *)
Lemma Sorted_snoc {A : Type} (R : A -> A -> Prop) (l : list A) (x : A) :
  Sorted R l -> (forall y, at_last l = Some y -> R y x) -> Sorted R (l ++ [x]).
Proof.
  induction 1 as [|y l Hs IH Hhd]; intros Hlast; simpl.
  - repeat constructor.
  - constructor.
    + apply IH. intros z Hz. apply Hlast. simpl. destruct l; [discriminate | exact Hz].
    + destruct Hhd as [|z l Hyz]; simpl.
      * constructor. now apply Hlast.
      * now constructor.
Qed.

Lemma Sorted_snoc_inv {A : Type} (R : A -> A -> Prop) (l : list A) (x : A) :
  Sorted R (l ++ [x]) -> Sorted R l /\ (forall y, at_last l = Some y -> R y x).
Proof.
  induction l as [|y l IH]; simpl; intros Hs.
  - split; [constructor | discriminate].
  - apply Sorted_inv in Hs as [Hs Hhd]. destruct (IH Hs) as [Hl Hlast]. split.
    + constructor; [exact Hl|]. destruct l; [constructor|].
      inversion Hhd; now constructor.
    + intros z Hz. destruct l as [|y' l].
      * injection Hz as <-. now inversion Hhd.
      * now apply Hlast.
Qed.

Section GrouperFacts.
Context `{Collator} `{DateFormat}.

(** The step of the pass, by the currently open group. *)
Lemma groupStep_nil (ev : EventItem) :
  groupStep [] ev = [mkGroup (eventGroupKey ev) [ev]].
Proof. reflexivity. Qed.

Lemma groupStep_snoc (gs : list Group) (g : Group) (ev : EventItem) :
  groupStep (gs ++ [g]) ev =
  if (groupKey g =? eventGroupKey ev)%string
  then (gs ++ [mkGroup (groupKey g) (events g ++ [ev])])%list
  else (gs ++ [g; mkGroup (eventGroupKey ev) [ev]])%list.
Proof.
  unfold groupStep. rewrite at_last_app.
  destruct (groupKey g =? eventGroupKey ev)%string; simpl.
  - apply push_to_last_app.
  - rewrite push_to_last_app. simpl. now rewrite <- app_assoc.
Qed.

Lemma groupStep_chunked (gs : list Group) (evs : list EventItem) (ev : EventItem) :
  Chunked gs evs -> Chunked (groupStep gs ev) (evs ++ [ev]).
Proof.
  intros [Hc Hg Ha]. destruct gs as [|g0 gs0] using rev_ind.
  - simpl in Hc. subst evs. rewrite groupStep_nil. split; simpl.
    + reflexivity.
    + repeat constructor. discriminate.
    + repeat constructor.
  - clear IHgs0. rename gs0 into gs, g0 into g. rewrite groupStep_snoc.
    rewrite map_app, concat_app in Hc. simpl in Hc. rewrite app_nil_r in Hc.
    apply Forall_app in Hg as [Hgs Hg]. apply Forall_inv in Hg as [Hne Hkeys].
    apply Sorted_snoc_inv in Ha as [Hadj Hlast].
    destruct (String.eqb_spec (groupKey g) (eventGroupKey ev)) as [Heq | Hneq].
    + split.
      * rewrite map_app, concat_app. simpl. rewrite app_nil_r, <- Hc.
        now rewrite app_assoc.
      * apply Forall_app. split; [exact Hgs|]. constructor; [|constructor].
        simpl. split.
        -- destruct (events g); discriminate.
        -- apply Forall_app. split; [exact Hkeys|]. now repeat constructor.
      * apply Sorted_snoc; [exact Hadj|]. intros y Hy. simpl. now apply Hlast.
    + split.
      * rewrite map_app, concat_app. simpl. rewrite <- Hc.
        now rewrite <- app_assoc.
      * apply Forall_app. split; [exact Hgs|].
        constructor; [now split|]. constructor; [|constructor]. simpl. split.
        -- discriminate.
        -- now repeat constructor.
      * replace (gs ++ [g; mkGroup (eventGroupKey ev) [ev]])%list
          with ((gs ++ [g]) ++ [mkGroup (eventGroupKey ev) [ev]])%list
          by now rewrite <- app_assoc.
        apply Sorted_snoc.
        -- now apply Sorted_snoc.
        -- intros y Hy. rewrite at_last_app in Hy. injection Hy as <-. exact Hneq.
Qed.

Lemma fold_groupStep_chunked (evs : list EventItem) :
  forall gs evs0,
    Chunked gs evs0 -> Chunked (fold_left groupStep evs gs) (evs0 ++ evs).
Proof.
  induction evs as [|ev evs IH]; intros gs evs0 Hc; simpl.
  - now rewrite app_nil_r.
  - replace (evs0 ++ ev :: evs)%list with ((evs0 ++ [ev]) ++ evs)%list
      by now rewrite <- app_assoc.
    apply IH. now apply groupStep_chunked.
Qed.

Lemma groupPass_chunked (evs : list EventItem) : Chunked (groupPass evs) evs.
Proof.
  apply (fold_groupStep_chunked evs [] []).
  split; simpl; constructor.
Qed.



(** ** The order of the sort inside [groupByMonth] *)

Lemma groupByMonth_compare_le (a b : EventItem) :
  cmp_le groupByMonth_compare a b <-> grouperOrder a b.
Proof.
  unfold cmp_le, sortCompare, groupByMonth_compare, grouperOrder.
  destruct (start a) as [sa|], (start b) as [sb|]; simpl;
    rewrite ?string_or_empty; try lia.
  destruct (Z.eqb_spec (getTime sa) (getTime sb)); simpl; lia.
Qed.

Lemma groupByMonth_compare_consistent : Consistent groupByMonth_compare.
Proof.
  split.
  - intros a b. unfold sortCompare, groupByMonth_compare.
    destruct (start a) as [sa|], (start b) as [sb|]; simpl;
      try lia; try apply localeCompare_antisym.
    rewrite (Z.eqb_sym (getTime sb)).
    destruct (Z.eqb_spec (getTime sa) (getTime sb)); simpl;
      [apply localeCompare_antisym | lia].
  - intros a b c. fold (cmp_le groupByMonth_compare a b).
    fold (cmp_le groupByMonth_compare b c). fold (cmp_le groupByMonth_compare a c).
    rewrite !groupByMonth_compare_le. unfold grouperOrder.
    pose proof (localeCompare_trans (summary a) (summary b) (summary c)).
    destruct (start a) as [sa|], (start b) as [sb|], (start c) as [sc|];
      try tauto; try lia.
Qed.

Lemma groupByMonth_sorted (evs : list EventItem) :
  StronglySorted grouperOrder (fst (groupByMonth evs)).
Proof.
  apply StronglySorted_impl with (R := cmp_le groupByMonth_compare).
  - intros a b. apply groupByMonth_compare_le.
  - apply Array_sort_sorted, groupByMonth_compare_consistent.
Qed.

Lemma sortEvents_order_refines (l : list EventItem) :
  StronglySorted threeRuleOrder l -> NoDup (presentStarts l) ->
  Sorted (cmp_le groupByMonth_compare) l.
Proof.
  induction 1 as [|x l Hs IH Hall]; intros Hnd.
  - constructor.
  - assert (NoDup (presentStarts l)) as Hnd'.
    { unfold presentStarts in Hnd. simpl in Hnd.
      destruct (start x); [now apply NoDup_cons_iff in Hnd | exact Hnd]. }
    constructor; [now apply IH|].
    destruct l as [|y l]; constructor.
    apply Forall_inv in Hall. apply groupByMonth_compare_le.
    unfold threeRuleOrder in Hall. unfold grouperOrder.
    unfold presentStarts in Hnd. simpl in Hnd.
    destruct (start x) as [sx|], (start y) as [sy|]; try tauto.
    left. apply NoDup_cons_iff in Hnd as [Hnotin _].
    assert (getTime sx <> getTime sy) by (intros E; apply Hnotin; now left).
    lia.
Qed.

(** C3, amended: the groups' events, concatenated, are the array as
    [groupByMonth] has re-sorted it: the events of the sorter's output,
    ordered by start with the absent starts last and, among events with the
    same start, by summary; events that compare equal under that order keep
    their places; and the sorter's output comes back as it was whenever no
    two events have the same present start. *)
Theorem groupByMonth_concat_resorted :
  forall evs : list EventItem,
    let sorted := sortEvents evs in
    let arr := fst (groupByMonth sorted) in
    let groups := snd (groupByMonth sorted) in
    List.concat (map events groups) = arr
    /\ arr = Array_sort groupByMonth_compare sorted
    /\ Permutation arr sorted
    /\ StronglySorted grouperOrder arr
    /\ (forall z,
           List.filter (cmp_eqb groupByMonth_compare z) arr =
           List.filter (cmp_eqb groupByMonth_compare z) sorted)
    /\ (NoDup (presentStarts evs) -> arr = sorted).
Proof.
  intros evs sorted arr groups.
  split; [apply (chunked_concat _ _ (groupPass_chunked arr))|].
  split; [reflexivity|].
  split; [apply Array_sort_perm|].
  split; [apply groupByMonth_sorted|].
  split; [intros z; apply Array_sort_stable, groupByMonth_compare_consistent|].
  intros Hnd. apply Array_sort_sorted_id. apply sortEvents_order_refines.
  - apply sortEvents_strongly_sorted.
  - apply (Permutation_NoDup (l := presentStarts evs)); [|exact Hnd].
    apply Permutation_flat_map, Permutation_sym, Array_sort_perm.
Qed.

Lemma StronglySorted_app_r {A : Type} (R : A -> A -> Prop) (l1 l2 : list A) :
  StronglySorted R (l1 ++ l2) -> StronglySorted R l2.
Proof.
  induction l1 as [|x l1 IH]; simpl; intros Hs; [exact Hs|].
  apply StronglySorted_inv in Hs as [Hs _]. auto.
Qed.

Lemma StronglySorted_app_In {A : Type} (R : A -> A -> Prop) (l1 l2 : list A) :
  StronglySorted R (l1 ++ l2) -> forall a b, In a l1 -> In b l2 -> R a b.
Proof.
  induction l1 as [|x l1 IH]; simpl; intros Hs a b Ha Hb; [contradiction|].
  apply StronglySorted_inv in Hs as [Hs Hall]. destruct Ha as [->|Ha].
  - rewrite Forall_forall in Hall. apply Hall, in_or_app. now right.
  - now apply IH.
Qed.

Lemma Sorted_app_r {A : Type} (R : A -> A -> Prop) (l1 l2 : list A) :
  Sorted R (l1 ++ l2) -> Sorted R l2.
Proof.
  induction l1 as [|x l1 IH]; simpl; intros Hs; [exact Hs|].
  apply Sorted_inv in Hs as [Hs _]. auto.
Qed.

Lemma grouperOrder_absent (a b : EventItem) :
  grouperOrder a b -> start a = None -> start b = None.
Proof.
  unfold grouperOrder. intros Hab Ha. rewrite Ha in Hab.
  destruct (start b); [contradiction | reflexivity].
Qed.

(** C10: as the formatter never prints a month as [Unknown], a group with
    the key [Unknown] has no group after it, so there is at most one and it
    is the last; its events are events without a start, and every event of
    the groups before it has a start. *)
Theorem unknown_group_is_last :
  forall evs : list EventItem,
    (forall d, formatInTimeZone d currentTimeZone "MMMM yyyy" <> "Unknown") ->
    forall gs1 g gs2,
      snd (groupByMonth evs) = (gs1 ++ g :: gs2)%list ->
      groupKey g = "Unknown" ->
      gs2 = []
      /\ Forall (fun e => start e = None) (events g)
      /\ Forall (fun e => start e <> None) (List.concat (map events gs1)).
Proof.
  intros evs Hfmt gs1 g gs2 Hgs Hkey.
  pose proof (groupByMonth_sorted evs) as Hsorted.
  destruct (groupPass_chunked (fst (groupByMonth evs))) as [Hc Hg Ha].
  change (groupPass (fst (groupByMonth evs))) with (snd (groupByMonth evs)) in *.
  rewrite Hgs in *. clear Hgs.
  set (arr := fst (groupByMonth evs)) in *.
  assert (Habsent : forall e, eventGroupKey e = "Unknown" <-> start e = None).
  { intros e. unfold eventGroupKey. destruct (start e) as [d|].
    - split; [intros E; now apply Hfmt in E | discriminate].
    - tauto. }
  rewrite map_app, concat_app in Hc. simpl in Hc.
  apply Forall_app in Hg as [Hg1 Hg]. apply Forall_cons_iff in Hg as [[Hne Hkeys] Hg2].
  assert (Hnone : Forall (fun e => start e = None) (events g)).
  { eapply Forall_impl; [|exact Hkeys]. intros e He. apply Habsent. congruence. }
  destruct (events g) as [|e0 es0] eqn:Eg; [congruence|]. clear Hne.
  assert (He0 : start e0 = None) by now apply Forall_inv in Hnone.
  split; [|split; [exact Hnone|]].
  - destruct gs2 as [|g' gs2]; [reflexivity|]. exfalso.
    apply Sorted_app_r in Ha. apply Sorted_inv in Ha as [_ Hhd].
    apply HdRel_inv in Hhd.
    apply Forall_inv in Hg2 as [Hne' Hkeys'].
    destruct (events g') as [|e' es'] eqn:Eg'; [congruence|].
    apply Forall_inv in Hkeys'.
    assert (start e' <> None) as He'.
    { intros E. apply Habsent in E. congruence. }
    apply He'. apply grouperOrder_absent with (a := e0); [|exact He0].
    rewrite <- Hc in Hsorted. apply StronglySorted_app_r in Hsorted.
    simpl in Hsorted. rewrite Eg' in Hsorted.
    apply (StronglySorted_app_In _ (e0 :: es0)
             ((e' :: es') ++ List.concat (map events gs2)) Hsorted); [now left|].
    apply in_or_app. left. now left.
  - apply Forall_forall. intros e He Hs.
    destruct gs1 as [|gl gs1'] using rev_ind; [contradiction|]. clear IHgs1'.
    apply Forall_app in Hg1 as [Hg1 Hgl].
    apply Forall_inv in Hgl as [Hnel Hkeysl].
    assert (Hkl : groupKey gl <> groupKey g).
    { rewrite <- app_assoc in Ha. apply Sorted_app_r in Ha. simpl in Ha.
      apply Sorted_inv in Ha as [_ Hhd]. now apply HdRel_inv in Hhd. }
    destruct (events gl) as [|el esl] eqn:Egl; [congruence|].
    assert (start el <> None) as Hel.
    { intros E. apply Habsent in E. apply Forall_inv in Hkeysl. congruence. }
    rewrite map_app, concat_app in He. simpl in He. rewrite app_nil_r, Egl in He.
    apply in_app_or in He as [He | He].
    + apply Hel. apply grouperOrder_absent with (a := e); [|exact Hs].
      rewrite <- Hc in Hsorted. rewrite map_app, concat_app in Hsorted.
      simpl in Hsorted. rewrite app_nil_r, Egl, <- !app_assoc in Hsorted.
      apply (StronglySorted_app_In _ _ _ Hsorted); [exact He|].
      apply in_or_app. left. now left.
    + rewrite Forall_forall in Hkeysl. specialize (Hkeysl e He).
      apply Habsent in Hs. congruence.
Qed.
End GrouperFacts.

(* ================================================================== *)
(** * Renderer: properties *)
(* ================================================================== *)

(** ** Escaping *)

Lemma escape_step (c : ascii) (s : string) :
  replaceAll "'" "&#39;"
    (replaceAll "034" "&quot;"
       (replaceAll ">" "&gt;"
          (replaceAll "<" "&lt;" (replaceAll "&" "&amp;" (String c s))))) =
  escapeChar c ++
  replaceAll "'" "&#39;"
    (replaceAll "034" "&quot;"
       (replaceAll ">" "&gt;"
          (replaceAll "<" "&lt;" (replaceAll "&" "&amp;" s)))).
Proof.
  destruct c as [[] [] [] [] [] [] [] []]; reflexivity.
Qed.

Lemma escapeHtml_escapeChars (s : string) : escapeHtml s = escapeChars s.
Proof.
  unfold escapeHtml. destruct s as [|c s]; [reflexivity|].
  cbn [truthy_string negb]. generalize (String c s). clear c s.
  induction s as [|c s IH]; [reflexivity|].
  rewrite escape_step. cbn [escapeChars]. now rewrite IH.
Qed.

Lemma countChar_app (c : ascii) (s1 s2 : string) :
  countChar c (s1 ++ s2) = (countChar c s1 + countChar c s2)%nat.
Proof.
  induction s1 as [|a s1 IH]; simpl; [reflexivity|]. rewrite IH. lia.
Qed.




Lemma countChar_amp_escapeChars (s : string) :
  (countChar "&" (escapeChars s)
   = countChar "&" s + countChar "<" s + countChar ">" s
     + countChar "034" s + countChar "'" s)%nat.
Proof.
  induction s as [|c s IH]; [reflexivity|].
  cbn [escapeChars]. rewrite countChar_app, IH.
  destruct c as [[] [] [] [] [] [] [] []]; cbn; lia.
Qed.

(** ** Counting through the templates *)








Section RendererFacts.
Context `{Collator} `{DateFormat}.

Section TwoEscapes.
Variables esc1 esc2 : string -> string.
Variable c : ascii.
Hypothesis esc_count : forall s, countChar c (esc1 s) = countChar c (esc2 s).



End TwoEscapes.









(** ** The time range *)

Lemma truthy_string_true (s : string) : s <> EmptyString -> truthy_string s = true.
Proof. destruct s; [congruence | reflexivity]. Qed.

(** C6, amended: when the formatter prints every time as a non-empty text,
    the time range is the start time, the separator and the end time when
    both are present; the start time alone when only the start is present;
    the separator followed by the end time when only the end is present;
    and empty, so that nothing follows the location, when neither is. *)
Theorem timeRange_by_presence :
  (forall d, toLocaleTimeString d <> EmptyString) ->
  forall ev : EventItem,
    timeRange ev =
    match start ev, end_ ev with
    | Some s, Some e => toLocaleTimeString s ++ " – " ++ toLocaleTimeString e
    | Some s, None => toLocaleTimeString s
    | None, Some e => " – " ++ toLocaleTimeString e
    | None, None => EmptyString
    end.
Proof.
  intros Hfmt ev. unfold timeRange.
  destruct (start ev) as [s|], (end_ ev) as [e|]; cbn [truthy_ref formatTime].
  - rewrite !(truthy_string_true _ (Hfmt _)). cbn [orb template fold_right].
    now rewrite append_nil_r.
  - rewrite (truthy_string_true _ (Hfmt s)). cbn.
    now rewrite !append_nil_r.
  - rewrite (truthy_string_true _ (Hfmt e)). cbn [truthy_string orb template fold_right].
    cbn [append]. now rewrite append_nil_r.
  - reflexivity.
Qed.

(** ** The entry of an event *)

(** C7: the entry of an event is a [div] of class [event] that holds, in
    this order, the heading ([h3] of class [date]) with the start formatted
    in the display time zone or a question mark when the start is absent;
    the summary element; the meta element with the location and the time
    range; and the description element unless the description is empty.
    Each of the three elements has [hidden] after its class name exactly
    when its option is off. *)
Theorem eventHtml_structure :
  forall (ev : EventItem) (opts : Opts),
    eventHtml ev opts =
    template [
      nl; nl; "        "; "<div class="; dq; "event"; dq; ">"; nl;
      "           ";
      element "h3" "date"
        (match start ev with
         | Some d => formatInTimeZone d currentTimeZone "EEEE, MMMM d, yyyy hh:mm a"
         | None => "?"
         end);
      nl; "          ";
      element "div" ("summary " ++ hiddenUnless (includeSummary opts))
        (escapeHtml (summary ev));
      nl; "          ";
      element "div" ("meta " ++ hiddenUnless (includeMeta opts))
        (escapeHtml (location ev) ++ " " ++ timeRangeSuffix ev);
      nl; "          ";
      (if (description ev =? EmptyString)%string then EmptyString
       else element "div" ("desc " ++ hiddenUnless (includeDesc opts))
              (escapeHtml (description ev)));
      nl; "        "; "</div>"; nl; "      "
    ]
    /\ (forall flag, hiddenUnless flag = "hidden" <-> truthy_flag flag = false)
    /\ (forall flag, hiddenUnless flag = EmptyString <-> truthy_flag flag = true).
Proof.
  intros ev opts. split; [|split].
  - unfold eventHtml, eventHtml_with, descHtml_with, element, timeRangeSuffix,
      dateHeading.
    destruct (description ev) as [|c d]; cbn [truthy_string String.eqb];
      cbn [template fold_right]; rewrite ?append_nil_r, <- ?append_assoc;
      cbn [append]; rewrite <- ?append_assoc; reflexivity.
  - intros flag. unfold hiddenUnless.
    destruct (truthy_flag flag); split; intros; congruence.
  - intros flag. unfold hiddenUnless.
    destruct (truthy_flag flag); split; intros; congruence.
Qed.
End RendererFacts.

(* ================================================================== *)
(** * An invalid pattern: properties *)
(* ================================================================== *)

Section ActionFacts.
Context `{Collator} `{DateFormat} `{RegExpEngine}.



End ActionFacts.

(* ================================================================== *)
(** * More on [Array.prototype.sort] *)
(* ================================================================== *)

Lemma filter_filter_comm {A : Type} (p q : A -> bool) (l : list A) :
  List.filter p (List.filter q l) = List.filter q (List.filter p l).
Proof.
  induction l as [|x l IH]; simpl; [reflexivity|].
  destruct (p x) eqn:Hp, (q x) eqn:Hq; simpl; rewrite ?Hp, ?Hq, IH; reflexivity.
Qed.

Lemma StronglySorted_filter {A : Type} (R : A -> A -> Prop) (p : A -> bool)
      (l : list A) :
  StronglySorted R l -> StronglySorted R (List.filter p l).
Proof.
  induction 1 as [|x l Hs IH Hall]; simpl; [constructor|].
  destruct (p x); [|exact IH]. constructor; [exact IH|].
  rewrite Forall_forall in *. intros y Hy. apply Hall.
  now apply filter_In in Hy.
Qed.

Section ArraySortMore.
Context {A : Type}.
Variable comparefn : A -> A -> Number.

(** Elements that all compare equal to one another keep their order, whatever
    the comparator does elsewhere. *)
Lemma sort_insert_class (p : A -> bool) (x : A) (l : list A) :
  (forall a b, p a = true -> p b = true -> sortCompare comparefn a b = 0) ->
  List.filter p (sort_insert comparefn x l) = List.filter p (x :: l).
Proof.
  intros Hp. induction l as [|y l IH]; [reflexivity|].
  simpl sort_insert. destruct (Z.ltb_spec 0 (sortCompare comparefn x y)) as [Hgt|Hle].
  - simpl List.filter at 1. rewrite IH. simpl.
    destruct (p x) eqn:Hx, (p y) eqn:Hy; try reflexivity.
    specialize (Hp x y Hx Hy). lia.
  - reflexivity.
Qed.

Lemma Array_sort_class (p : A -> bool) (l : list A) :
  (forall a b, p a = true -> p b = true -> sortCompare comparefn a b = 0) ->
  List.filter p (Array_sort comparefn l) = List.filter p l.
Proof.
  intros Hp. induction l as [|x l IH]; [reflexivity|].
  simpl Array_sort. rewrite sort_insert_class by exact Hp.
  simpl. now rewrite IH.
Qed.

Hypothesis consistent : Consistent comparefn.

Lemma Array_sort_idempotent (l : list A) :
  Array_sort comparefn (Array_sort comparefn l) = Array_sort comparefn l.
Proof.
  apply Array_sort_sorted_id, StronglySorted_Sorted.
  now apply Array_sort_sorted.
Qed.

Lemma Array_sort_filter (p : A -> bool) (l : list A) :
  List.filter p (Array_sort comparefn l) = Array_sort comparefn (List.filter p l).
Proof.
  apply Array_sort_unique; [exact consistent| |].
  - apply StronglySorted_filter. now apply Array_sort_sorted.
  - intros z. rewrite filter_filter_comm, Array_sort_stable by exact consistent.
    apply filter_filter_comm.
Qed.
End ArraySortMore.

(* ================================================================== *)
(** * Filter and sorter together *)
(* ================================================================== *)

Lemma filter_split_perm {A : Type} (p : A -> bool) (l : list A) :
  Permutation (List.filter p l ++ List.filter (fun x => negb (p x)) l) l.
Proof.
  induction l as [|x l IH]; simpl; [constructor|].
  destruct (p x); simpl.
  - now constructor.
  - apply Permutation_sym, Permutation_cons_app, Permutation_sym, IH.
Qed.

Lemma filter_negb_filter {A : Type} (p : A -> bool) (l : list A) :
  List.filter (fun x => negb (p x)) (List.filter p l) = [].
Proof.
  induction l as [|x l IH]; simpl; [reflexivity|].
  destruct (p x) eqn:E; simpl; rewrite ?E; exact IH.
Qed.

Lemma filter_idempotent {A : Type} (p : A -> bool) (l : list A) :
  List.filter p (List.filter p l) = List.filter p l.
Proof.
  induction l as [|x l IH]; simpl; [reflexivity|].
  destruct (p x) eqn:E; simpl; rewrite ?E, IH; reflexivity.
Qed.

Section FilterSorterMore.
Context `{Collator} `{RegExpEngine}.

(** X1: [sortEvents] is stable where it matters to a reader: for every
    instant, the events that start at it stand in the sorted array in the
    order they had in the input. *)
Theorem sortEvents_stable_on_start :
  forall (evs : list EventItem) (t : Z),
    List.filter (startsAt t) (sortEvents evs) = List.filter (startsAt t) evs.
Proof.
  intros evs t. apply Array_sort_class. intros a b Ha Hb.
  unfold startsAt in Ha, Hb. unfold sortCompare, sortEvents_compare, valueOf.
  destruct (start a) as [sa|]; [|discriminate].
  destruct (start b) as [sb|]; [|discriminate].
  apply Z.eqb_eq in Ha, Hb. simpl. lia.
Qed.

(** X2: sorting commutes with filtering, and sorting twice is sorting once:
    whether the events are filtered before or after [sortEvents], the same
    array results. *)
Theorem sortEvents_applyFilter_commute :
  forall (evs : list EventItem) (matcher : option RegExp) (inv : option bool),
    sortEvents (applyFilter evs matcher inv) = applyFilter (sortEvents evs) matcher inv
    /\ sortEvents (sortEvents evs) = sortEvents evs.
Proof.
  intros evs matcher inv. split.
  - destruct matcher as [re|]; [|reflexivity].
    unfold applyFilter, sortEvents. symmetry.
    apply Array_sort_filter, sortEvents_compare_consistent.
  - apply Array_sort_idempotent, sortEvents_compare_consistent.
Qed.

(** X3: with a matcher, every event is kept either by the filter or by the
    inverted filter and never by both: the two results are disjoint and
    their sizes add up to the size of the input; no filter returns more
    events than it is given, and filtering again changes nothing. *)
Theorem applyFilter_partition :
  forall (evs : list EventItem) (re : RegExp) (matcher : option RegExp)
         (inv : option bool),
    (List.length (applyFilter evs (Some re) (Some false))
     + List.length (applyFilter evs (Some re) (Some true)) = List.length evs)%nat
    /\ Permutation (applyFilter evs (Some re) (Some false)
                    ++ applyFilter evs (Some re) (Some true)) evs
    /\ applyFilter (applyFilter evs (Some re) (Some false)) (Some re) (Some true) = []
    /\ (List.length (applyFilter evs matcher inv) <= List.length evs)%nat
    /\ applyFilter (applyFilter evs matcher inv) matcher inv
       = applyFilter evs matcher inv.
Proof.
  intros evs re matcher inv.
  assert (Hperm : Permutation (applyFilter evs (Some re) (Some false)
                               ++ applyFilter evs (Some re) (Some true)) evs).
  { unfold applyFilter. cbn [truthy_flag]. apply filter_split_perm. }
  split; [|split; [exact Hperm|split; [|split]]].
  - rewrite <- (Permutation_length Hperm). now rewrite length_app.
  - unfold applyFilter. cbn [truthy_flag]. apply filter_negb_filter.
  - destruct matcher; simpl; [apply filter_length_le | lia].
  - destruct matcher as [m|]; simpl; [apply filter_idempotent | reflexivity].
Qed.
End FilterSorterMore.

(* ================================================================== *)
(** * Sorter, grouper and renderer together *)
(* ================================================================== *)

Lemma StronglySorted_app_l {A : Type} (R : A -> A -> Prop) (l1 l2 : list A) :
  StronglySorted R (l1 ++ l2) -> StronglySorted R l1.
Proof.
  induction l1 as [|x l1 IH]; simpl; intros Hs; [constructor|].
  apply StronglySorted_inv in Hs as [Hs Hall]. constructor; [auto|].
  apply Forall_app in Hall. tauto.
Qed.

Lemma length_concat_nonempty {A : Type} (ll : list (list A)) :
  Forall (fun l => l <> []) ll -> (List.length ll <= List.length (List.concat ll))%nat.
Proof.
  induction 1 as [|l ll Hl _ IH]; simpl; [lia|].
  rewrite length_app. destruct l; [congruence | simpl; lia].
Qed.

Section GrouperMore.
Context `{Collator} `{DateFormat}.

(** Events the grouper's comparator holds equal are equal for the sorter's
    comparator too. *)
Lemma grouper_class_in_sorter_class (z a b : EventItem) :
  cmp_eqb groupByMonth_compare z a = true ->
  cmp_eqb groupByMonth_compare z b = true ->
  sortCompare sortEvents_compare a b = 0.
Proof.
  intros Hza Hzb.
  rewrite (eqv_sym _ groupByMonth_compare_consistent) in Hza.
  pose proof (eqv_trans _ groupByMonth_compare_consistent _ _ _ Hza Hzb) as Hab.
  unfold cmp_eqb in Hab. apply Z.eqb_eq in Hab. revert Hab.
  unfold sortCompare, groupByMonth_compare, sortEvents_compare, valueOf.
  destruct (start a) as [sa|], (start b) as [sb|]; simpl; try lia.
  destruct (Z.eqb_spec (getTime sa) (getTime sb)); simpl; lia.
Qed.

Lemma groupByMonth_sort_absorbs (evs : list EventItem) :
  Array_sort groupByMonth_compare (sortEvents evs)
  = Array_sort groupByMonth_compare evs.
Proof.
  apply Array_sort_unique; [exact groupByMonth_compare_consistent| |].
  - apply Array_sort_sorted, groupByMonth_compare_consistent.
  - intros z. rewrite Array_sort_stable by exact groupByMonth_compare_consistent.
    apply Array_sort_class. apply grouper_class_in_sorter_class.
Qed.

(** X4: the grouper does not need the sorter: grouping the sorted array and
    grouping the array as it came give the same groups and leave the same
    array, so the document is the same whether or not [sortEvents] ran
    before [renderHTML]. *)
Theorem renderHTML_ignores_sortEvents :
  forall (t : string) (evs : list EventItem) (opts : Opts),
    groupByMonth (sortEvents evs) = groupByMonth evs
    /\ renderHTML t (sortEvents evs) opts = renderHTML t evs opts.
Proof.
  intros t evs opts.
  assert (Hg : groupByMonth (sortEvents evs) = groupByMonth evs).
  { unfold groupByMonth. now rewrite groupByMonth_sort_absorbs. }
  split; [exact Hg|].
  unfold renderHTML, renderHTML_with. now rewrite Hg.
Qed.

(** X5: [renderHTML] sorts the array it is given in place; grouping or
    rendering the array as a first call left it gives the same groups and
    the same document as the first call. *)
Theorem renderHTML_again :
  forall (t : string) (evs : list EventItem) (opts : Opts),
    groupByMonth (fst (groupByMonth evs)) = groupByMonth evs
    /\ renderHTML t (fst (groupByMonth evs)) opts = renderHTML t evs opts.
Proof.
  intros t evs opts.
  assert (Hg : groupByMonth (fst (groupByMonth evs)) = groupByMonth evs).
  { unfold groupByMonth. cbn [fst].
    now rewrite (Array_sort_idempotent _ groupByMonth_compare_consistent). }
  split; [exact Hg|].
  unfold renderHTML, renderHTML_with. now rewrite Hg.
Qed.

(** X6: grouping neither loses nor repeats an event: the events of the
    groups, taken together, are the events of the input, each as often as it
    occurs there; the array left behind is a rearrangement of the input; and
    there are at most as many groups as events. *)
Theorem groupByMonth_conserves_events :
  forall evs : list EventItem,
    Permutation (List.concat (map events (snd (groupByMonth evs)))) evs
    /\ Permutation (fst (groupByMonth evs)) evs
    /\ (List.length (snd (groupByMonth evs)) <= List.length evs)%nat
    /\ list_sum (map (fun g => List.length (events g)) (snd (groupByMonth evs)))
       = List.length evs.
Proof.
  intros evs.
  destruct (groupPass_chunked (fst (groupByMonth evs))) as [Hc Hg _].
  change (groupPass (fst (groupByMonth evs))) with (snd (groupByMonth evs)) in *.
  assert (Hp : Permutation (fst (groupByMonth evs)) evs) by apply Array_sort_perm.
  split; [now rewrite Hc|]. split; [exact Hp|]. split.
  - rewrite <- (Permutation_length Hp), <- Hc, <- (length_map events).
    apply length_concat_nonempty. rewrite Forall_map.
    eapply Forall_impl; [|exact Hg]. intros g [Hne _]. exact Hne.
  - rewrite <- (Permutation_length Hp), <- Hc.
    clear. induction (snd (groupByMonth evs)) as [|g gs IH]; simpl; [reflexivity|].
    now rewrite length_app, IH.
Qed.

(** X7: the groups come in the order of time: an event of an earlier group
    stands before every event of a later group in the grouper's order (start
    ascending, absent starts last), and inside each group the events are in
    that order too. *)
Theorem groupByMonth_groups_in_order :
  forall evs : list EventItem,
    StronglySorted
      (fun g g' => forall e e', In e (events g) -> In e' (events g') -> grouperOrder e e')
      (snd (groupByMonth evs))
    /\ Forall (fun g => StronglySorted grouperOrder (events g))
              (snd (groupByMonth evs)).
Proof.
  intros evs. pose proof (groupByMonth_sorted evs) as Hs.
  destruct (groupPass_chunked (fst (groupByMonth evs))) as [Hc _ _].
  change (groupPass (fst (groupByMonth evs))) with (snd (groupByMonth evs)) in *.
  rewrite <- Hc in Hs. clear Hc.
  induction (snd (groupByMonth evs)) as [|g gs IH]; simpl in Hs.
  - split; constructor.
  - destruct (IH (StronglySorted_app_r _ _ _ Hs)) as [IH1 IH2]. split.
    + constructor; [exact IH1|]. apply Forall_forall. intros g' Hg' e e' He He'.
      apply (StronglySorted_app_In _ _ _ Hs); [exact He|].
      apply in_concat. exists (events g'). split; [now apply in_map | exact He'].
    + constructor; [|exact IH2]. exact (StronglySorted_app_l _ _ _ Hs).
Qed.
End GrouperMore.

(* ================================================================== *)
(** * More on escaping *)
(* ================================================================== *)

Lemma unescape_step (c : ascii) (rest : string) :
  unescapeFrom 0 (escapeChar c ++ rest) = String c (unescapeFrom 0 rest).
Proof. destruct c as [[] [] [] [] [] [] [] []]; reflexivity. Qed.

Lemma unescape_escapeChars (s : string) : unescapeHtml (escapeChars s) = s.
Proof.
  unfold unescapeHtml. induction s as [|c s IH]; [reflexivity|].
  cbn [escapeChars]. now rewrite unescape_step, IH.
Qed.

(** X8: escaping loses nothing: reading the five character references back
    returns the text that was escaped, so two different texts never have the
    same escaped form. *)
Theorem escapeHtml_round_trip :
  forall s1 s2 : string,
    unescapeHtml (escapeHtml s1) = s1
    /\ (escapeHtml s1 = escapeHtml s2 -> s1 = s2).
Proof.
  intros s1 s2.
  assert (Hrt : forall s, unescapeHtml (escapeHtml s) = s).
  { intros s. rewrite escapeHtml_escapeChars. apply unescape_escapeChars. }
  split; [apply Hrt|].
  intros E. rewrite <- (Hrt s1), <- (Hrt s2). now rewrite E.
Qed.

Lemma escapeChars_app (a b : string) :
  escapeChars (a ++ b) = escapeChars a ++ escapeChars b.
Proof.
  induction a as [|c a IH]; [reflexivity|].
  cbn [append escapeChars]. now rewrite IH, append_assoc.
Qed.

Lemma string_length_app (a b : string) :
  String.length (a ++ b) = (String.length a + String.length b)%nat.
Proof. induction a as [|c a IH]; simpl; [reflexivity | now rewrite IH]. Qed.

Lemma escapeChar_length (c : ascii) :
  String.length (escapeChar c) = (1 + escapeGrowth (String c EmptyString))%nat.
Proof. destruct c as [[] [] [] [] [] [] [] []]; reflexivity. Qed.

Lemma escapeGrowth_cons (c : ascii) (s : string) :
  escapeGrowth (String c s) = (escapeGrowth (String c EmptyString) + escapeGrowth s)%nat.
Proof. unfold escapeGrowth. cbn [countChar]. lia. Qed.

Lemma escapeChars_length (s : string) :
  String.length (escapeChars s) = (String.length s + escapeGrowth s)%nat.
Proof.
  induction s as [|c s IH]; [reflexivity|].
  cbn [escapeChars]. rewrite string_length_app, escapeChar_length, IH.
  rewrite (escapeGrowth_cons c s). cbn [String.length]. lia.
Qed.

Lemma escapeChar_plain (c : ascii) :
  escapeGrowth (String c EmptyString) = 0%nat -> escapeChar c = String c EmptyString.
Proof.
  destruct c as [[] [] [] [] [] [] [] []]; try reflexivity;
    intros E; vm_compute in E; discriminate.
Qed.

Lemma escapeChars_plain (s : string) : escapeGrowth s = 0%nat -> escapeChars s = s.
Proof.
  induction s as [|c s IH]; [reflexivity|].
  rewrite escapeGrowth_cons. intros E. cbn [escapeChars].
  rewrite escapeChar_plain, IH by lia. reflexivity.
Qed.

(** X9: escaping works character by character: the escaped form of a
    concatenation is the concatenation of the escaped forms; it is longer
    than the text by four characters for each ampersand and apostrophe, three
    for each less-than and greater-than sign and five for each double quote,
    hence at most six times as long; a text comes back unchanged exactly
    when it has none of the five characters; and escaping an escaped text
    once more changes it unless the text had none of them. *)
Theorem escapeHtml_by_character :
  forall a b : string,
    escapeHtml (a ++ b) = escapeHtml a ++ escapeHtml b
    /\ String.length (escapeHtml a) = (String.length a + escapeGrowth a)%nat
    /\ (String.length (escapeHtml a) <= 6 * String.length a)%nat
    /\ (escapeHtml a = a <-> escapeGrowth a = 0%nat)
    /\ (escapeHtml (escapeHtml a) = escapeHtml a <-> escapeGrowth a = 0%nat).
Proof.
  intros a b. rewrite !escapeHtml_escapeChars.
  assert (Hfix : forall s, escapeChars s = s <-> escapeGrowth s = 0%nat).
  { intros s. split; [|apply escapeChars_plain].
    intros E. pose proof (escapeChars_length s) as L. rewrite E in L. lia. }
  split; [apply escapeChars_app|].
  split; [apply escapeChars_length|].
  split.
  { rewrite escapeChars_length. unfold escapeGrowth.
    assert (countChar "&" a + countChar "<" a + countChar ">" a
            + countChar "034" a + countChar "'" a <= String.length a)%nat.
    { induction a as [|c a IH]; [simpl; lia|].
      cbn [countChar String.length].
      destruct c as [[] [] [] [] [] [] [] []]; cbn; lia. }
    lia. }
  split; [apply Hfix|].
  rewrite Hfix. split.
  - intros E. unfold escapeGrowth in E.
    pose proof (countChar_amp_escapeChars a) as Ha.
    unfold escapeGrowth. lia.
  - intros E. rewrite (escapeChars_plain a E). exact E.
Qed.

(* ================================================================== *)
(** * The address of the feed *)
(* ================================================================== *)

Lemma stripPrefix_length (p : string) :
  forall s rest,
    stripPrefixIgnoreCase p s = Some rest ->
    String.length s = (String.length p + String.length rest)%nat.
Proof.
  induction p as [|a p IH]; intros s rest E; simpl in E.
  - now injection E as <-.
  - destruct s as [|b s]; [discriminate|].
    destruct (Ascii.eqb (upperASCII a) (upperASCII b)); [|discriminate].
    simpl. now rewrite (IH _ _ E).
Qed.

(** X10: [normalizeUrl] never returns an address with the scheme [webcal:],
    in whatever case it was written: such an address comes back with
    [https:] in place of the scheme and the rest untouched, one character
    shorter; any other address, the empty one and a missing one come back
    as they are; and normalizing twice is normalizing once. *)
Theorem normalizeUrl_replaces_scheme :
  forall url : option string,
    normalizeUrl (normalizeUrl url) = normalizeUrl url
    /\ (forall r, normalizeUrl url = Some r -> hasWebcalScheme r = false)
    /\ (forall u rest,
           url = Some u -> stripPrefixIgnoreCase "webcal:" u = Some rest ->
           normalizeUrl url = Some ("https:" ++ rest)
           /\ String.length u = S (String.length ("https:" ++ rest)))
    /\ (forall u, url = Some u -> hasWebcalScheme u = false -> normalizeUrl url = url)
    /\ normalizeUrl None = None
    /\ normalizeUrl (Some EmptyString) = Some EmptyString.
Proof.
  intros url.
  assert (Hno : forall r, normalizeUrl url = Some r -> hasWebcalScheme r = false).
  { intros r. destruct url as [u|]; [|discriminate]. unfold normalizeUrl.
    destruct u as [|c u]; cbn [truthy_string negb].
    - intros E. now injection E as <-.
    - unfold replaceWebcal, hasWebcalScheme.
      destruct (stripPrefixIgnoreCase "webcal:" (String c u)) as [rest|] eqn:E;
        intros Er; injection Er as <-.
      + reflexivity.
      + now rewrite E. }
  assert (Hid : forall u, hasWebcalScheme u = false -> normalizeUrl (Some u) = Some u).
  { intros u. unfold hasWebcalScheme, normalizeUrl, replaceWebcal.
    destruct (stripPrefixIgnoreCase "webcal:" u); [discriminate|].
    now destruct (negb (truthy_string u)). }
  split; [|split; [exact Hno|split; [|split; [|split; reflexivity]]]].
  - destruct (normalizeUrl url) as [r|] eqn:E; [|reflexivity].
    apply Hid, Hno. reflexivity.
  - intros u rest -> E. split.
    + unfold normalizeUrl, replaceWebcal. rewrite E.
      destruct u; [discriminate | reflexivity].
    + rewrite (stripPrefix_length _ _ _ E), string_length_app. reflexivity.
  - intros u -> Hu. now apply Hid.
Qed.

(* ================================================================== *)
(** * Parsing the feed *)
(* ================================================================== *)

Lemma filter_Boolean_app {A : Type} (xs ys : list (option A)) :
  filter_Boolean (xs ++ ys) = (filter_Boolean xs ++ filter_Boolean ys)%list.
Proof.
  induction xs as [|[x|] xs IH]; simpl; [reflexivity| |exact IH].
  now rewrite IH.
Qed.

Lemma filter_Boolean_length {A : Type} (xs : list (option A)) :
  (List.length (filter_Boolean xs) <= List.length xs)%nat.
Proof. induction xs as [|[x|] xs IH]; simpl; lia. Qed.

Section ParseFacts.
Context `{ICALjs}.

Lemma decodeBlocks_app (l1 l2 : list ICALComponent) :
  decodeBlocks (l1 ++ l2) = (decodeBlocks l1 ++ decodeBlocks l2)%list.
Proof. unfold decodeBlocks. now rewrite map_app, filter_Boolean_app. Qed.

(** X11: [parseICal] fails exactly when the parser, the constructor of the
    component or the search for the blocks throws, and then with what was
    thrown.  Otherwise it returns at most one event per block, in the order
    of the blocks: a block whose decoding throws is left out and changes
    nothing about the events of the blocks around it, and a block that
    decodes gives its event at its place. *)
Theorem parseICal_skips_bad_blocks :
  forall icalText : string,
    (forall e, ICAL_parse icalText = inl e -> parseICal icalText = inl e)
    /\ (forall jcal e,
           ICAL_parse icalText = inr jcal -> ICAL_Component jcal = inl e ->
           parseICal icalText = inl e)
    /\ (forall jcal comp e,
           ICAL_parse icalText = inr jcal -> ICAL_Component jcal = inr comp ->
           getAllSubcomponents comp "vevent" = inl e ->
           parseICal icalText = inl e)
    /\ (forall jcal comp found,
           ICAL_parse icalText = inr jcal -> ICAL_Component jcal = inr comp ->
           getAllSubcomponents comp "vevent" = inr found ->
           parseICal icalText = inr (decodeBlocks (array_or_empty found))
           /\ (List.length (decodeBlocks (array_or_empty found))
               <= List.length (array_or_empty found))%nat)
    /\ (forall evs,
           parseICal icalText = inr evs ->
           exists jcal comp found,
             ICAL_parse icalText = inr jcal /\ ICAL_Component jcal = inr comp
             /\ getAllSubcomponents comp "vevent" = inr found
             /\ evs = decodeBlocks (array_or_empty found))
    /\ (forall l1 v l2 e,
           readEvent v = inl e ->
           decodeBlocks (l1 ++ v :: l2) = (decodeBlocks l1 ++ decodeBlocks l2)%list)
    /\ (forall l1 v l2 ev,
           readEvent v = inr ev ->
           decodeBlocks (l1 ++ v :: l2)
           = (decodeBlocks l1 ++ ev :: decodeBlocks l2)%list).
Proof.
  intros icalText. split; [|split; [|split; [|split; [|split; [|split]]]]].
  - intros e E. unfold parseICal. now rewrite E.
  - intros jcal e E1 E2. unfold parseICal. rewrite E1. simpl. now rewrite E2.
  - intros jcal comp e E1 E2 E3. unfold parseICal. rewrite E1. simpl.
    rewrite E2. simpl. now rewrite E3.
  - intros jcal comp found E1 E2 E3. split.
    + unfold parseICal. rewrite E1. simpl. rewrite E2. simpl. now rewrite E3.
    + unfold decodeBlocks.
      pose proof (filter_Boolean_length (map decodeEvent (array_or_empty found))) as L.
      now rewrite length_map in L.
  - intros evs. unfold parseICal.
    destruct (ICAL_parse icalText) as [e|jcal] eqn:E1; [discriminate|]. simpl.
    destruct (ICAL_Component jcal) as [e|comp] eqn:E2; [discriminate|]. simpl.
    destruct (getAllSubcomponents comp "vevent") as [e|found] eqn:E3;
      [discriminate|].
    simpl. intros E. injection E as <-. exists jcal, comp, found. auto.
  - intros l1 v l2 e E. rewrite decodeBlocks_app. f_equal.
    unfold decodeBlocks. simpl. unfold decodeEvent at 1. now rewrite E.
  - intros l1 v l2 ev E. rewrite decodeBlocks_app. f_equal.
    unfold decodeBlocks. simpl. unfold decodeEvent at 1. now rewrite E.
Qed.
End ParseFacts.

(* ================================================================== *)
(** * The run as a whole *)
(* ================================================================== *)

Section RunFacts.
Context `{Collator} `{DateFormat} `{RegExpEngine} `{Network} `{ICALjs} `{FileSystem}.

(** Running the binds of a computation, and reading its trace. *)
Ltac io_step := cbn [bindIO emit liftIO retIO throwIO].
Ltac io_read := cbn [fst snd app fetchesOf writesOf logsOf].

Lemma fetchICal_trace (url : string) :
  fst (fetchICal url) = [Fetch (asString (normalizeUrl (Some url)))].
Proof.
  unfold fetchICal. set (n := asString (normalizeUrl (Some url))).
  cbn. destruct (fetch n) as [e|res]; [reflexivity|].
  cbn. destruct (ok res); reflexivity.
Qed.

Lemma normalized_not_webcal (url : string) :
  hasWebcalScheme (asString (normalizeUrl (Some url))) = false.
Proof.
  unfold normalizeUrl. destruct url as [|c u]; cbn [truthy_string negb asString].
  - reflexivity.
  - unfold replaceWebcal, hasWebcalScheme.
    destruct (stripPrefixIgnoreCase "webcal:" (String c u)) as [rest|] eqn:E.
    + reflexivity.
    + now rewrite E.
Qed.

(** X12: [fetchICal] sends one request and sends it to the normalized
    address, which never has the scheme [webcal:]; it returns the body
    exactly when the request succeeds, the response is [ok] and its body can
    be read; a response that is not [ok] makes it throw an error whose
    message gives the normalized address, the status and the status text;
    and what [fetch] throws, it throws. *)
Theorem fetchICal_requests_normalized :
  forall url : string,
    let normalized := asString (normalizeUrl (Some url)) in
    fst (fetchICal url) = [Fetch normalized]
    /\ hasWebcalScheme normalized = false
    /\ (forall body,
           snd (fetchICal url) = inr body <->
           exists res, fetch normalized = inr res /\ ok res = true
                       /\ text res = inr body)
    /\ (forall res,
           fetch normalized = inr res -> ok res = false ->
           snd (fetchICal url)
           = inl (ThrowError
                    (template ["Failed to fetch "; normalized; ": ";
                               numberToString (status res); " "; statusText res])))
    /\ (forall e, fetch normalized = inl e -> snd (fetchICal url) = inl e).
Proof.
  intros url normalized.
  split; [apply fetchICal_trace|]. split; [apply normalized_not_webcal|].
  unfold fetchICal. fold normalized. split; [|split].
  - intros body. cbn. destruct (fetch normalized) as [e|res]; cbn.
    + split; [discriminate|]. intros [res [E _]]. discriminate.
    + destruct (ok res) eqn:Eok; cbn.
      * split.
        -- intros E. exists res. repeat split; auto.
        -- intros [res' [E [_ Et]]]. injection E as <-.
           rewrite Et. reflexivity.
      * split; [discriminate|]. intros [res' [E [Eok' _]]].
        injection E as <-. congruence.
  - intros res E Eok. cbn. rewrite E. cbn. now rewrite Eok.
  - intros e E. cbn. now rewrite E.
Qed.

(** X13: a run sends exactly one request, to the normalized address.  When
    it succeeds, the feed was fetched and parsed, the pattern compiled, and
    the one file written, at the output path, holds the document rendered
    from the filtered and sorted events; the path is the one line
    [console.log] prints.  When it fails, [console.log] prints nothing, and
    no file is written unless everything up to the write succeeded and the
    write itself is what failed. *)
Theorem program_action_outcome :
  forall (url : string) (opts : Opts),
    let trace := fst (program_action url opts) in
    let result := snd (program_action url opts) in
    fetchesOf trace = [asString (normalizeUrl (Some url))]
    /\ (result = inr tt ->
        exists icalText evs html,
          snd (fetchICal url) = inr icalText
          /\ parseICal icalText = inr evs
          /\ action evs opts = inr html
          /\ fs_writeFile (outPath opts) html = inr tt
          /\ writesOf trace = [(outPath opts, html)]
          /\ logsOf trace = [outPath opts])
    /\ (forall e,
           result = inl e ->
           logsOf trace = []
           /\ (writesOf trace = []
               \/ exists icalText evs html,
                    snd (fetchICal url) = inr icalText
                    /\ parseICal icalText = inr evs
                    /\ action evs opts = inr html
                    /\ fs_writeFile (outPath opts) html = inl e
                    /\ writesOf trace = [(outPath opts, html)])).
Proof.
  intros url opts trace result. subst trace result.
  unfold program_action, console_debug.
  pose proof (fetchICal_trace url) as Ht.
  destruct (fetchICal url) as [tf [ef|icalText]] eqn:Ef; simpl in Ht; subst tf.
  { destruct (truthy_flag (debug opts)); io_step; io_read;
      (split; [reflexivity|]); (split; [discriminate|]);
      intros e _; (split; [reflexivity | now left]). }
  destruct (parseICal icalText) as [ep|evs] eqn:Ep.
  { destruct (truthy_flag (debug opts)); io_step; rewrite Ep; io_step; io_read;
      (split; [reflexivity|]); (split; [discriminate|]);
      intros e _; (split; [reflexivity | now left]). }
  assert (Hact : forall matcher,
             (if truthy_opt_string (filter opts)
              then makeMatcher (filter opts) (caseSensitive opts)
              else inr None) = inr matcher ->
             action evs opts
             = inr (renderHTML (opt_string_or (title opts) "Calendar")
                      (sortEvents (applyFilter evs matcher (invert opts))) opts)).
  { intros matcher Em. unfold action. now rewrite Em. }
  unfold matcherOf.
  destruct (if truthy_opt_string (filter opts)
            then makeMatcher (filter opts) (caseSensitive opts)
            else inr None) as [err|matcher] eqn:Em.
  { destruct (truthy_flag (debug opts)); io_step; rewrite Ep; io_step; io_read;
      (split; [reflexivity|]); (split; [discriminate|]);
      intros e _; (split; [reflexivity | now left]). }
  specialize (Hact matcher eq_refl).
  set (html := renderHTML (opt_string_or (title opts) "Calendar")
                 (sortEvents (applyFilter evs matcher (invert opts))) opts) in *.
  destruct (fs_writeFile (outPath opts) html) as [ew|[]] eqn:Ew.
  - destruct (truthy_flag (debug opts)); io_step; rewrite Ep; io_step;
      fold html; rewrite Ew; io_step; io_read;
      (split; [reflexivity|]); (split; [discriminate|]);
      intros e E; injection E as <-; (split; [reflexivity|]);
      right; exists icalText, evs, html; repeat split; auto.
  - destruct (truthy_flag (debug opts)); io_step; rewrite Ep; io_step;
      fold html; rewrite Ew; io_step; io_read;
      (split; [reflexivity|]); (split; [|discriminate]);
      intros _; exists icalText, evs, html; repeat split; auto.
Qed.

(** X14: without the option [debug] the run is quiet: [console.debug]
    prints nothing, whatever happens. *)
Theorem program_action_quiet :
  forall (url : string) (opts : Opts),
    truthy_flag (debug opts) = false ->
    debugsOf (fst (program_action url opts)) = [].
Proof.
  intros url opts Hd. unfold program_action, console_debug. rewrite Hd.
  pose proof (fetchICal_trace url) as Ht.
  destruct (fetchICal url) as [tf [ef|icalText]] eqn:Ef; simpl in Ht; subst tf;
    [reflexivity|].
  io_step. destruct (parseICal icalText) as [ep|evs]; [reflexivity|].
  io_step. destruct (matcherOf opts) as [em|matcher]; [reflexivity|].
  io_step.
  match goal with
  | |- context [fs_writeFile ?p ?d] => destruct (fs_writeFile p d) as [ew|[]]
  end; reflexivity.
Qed.
End RunFacts.

(* ================================================================== *)
(** * The order of the feed *)
(* ================================================================== *)

Lemma Permutation_filter_both {A : Type} (p : A -> bool) (l l' : list A) :
  Permutation l l' -> Permutation (List.filter p l) (List.filter p l').
Proof.
  induction 1 as [|x l l' _ IH|x y l|l l' l'' _ IH1 _ IH2]; simpl.
  - constructor.
  - destruct (p x); [now constructor | exact IH].
  - destruct (p x), (p y); try apply Permutation_refl. apply perm_swap.
  - now apply Permutation_trans with (List.filter p l').
Qed.

Lemma Permutation_short_eq {A : Type} (l l' : list A) :
  Permutation l l' -> (List.length l <= 1)%nat -> l = l'.
Proof.
  intros Hp Hl. destruct l as [|x [|y l]]; simpl in Hl; [| |lia].
  - now apply Permutation_nil in Hp.
  - now apply Permutation_length_1_inv in Hp.
Qed.

Lemma filter_none {A : Type} (p : A -> bool) (l : list A) :
  Forall (fun x => p x = false) l -> List.filter p l = [].
Proof.
  induction 1 as [|x l Hx _ IH]; simpl; [reflexivity|]. now rewrite Hx.
Qed.

Lemma ForallOrdPairs_filter {A : Type} (R : A -> A -> Prop) (p : A -> bool)
      (l : list A) :
  ForallOrdPairs R l -> ForallOrdPairs R (List.filter p l).
Proof.
  induction 1 as [|a l Ha _ IH]; simpl; [constructor|].
  destruct (p a); [|exact IH]. constructor; [|exact IH].
  rewrite Forall_forall in *. intros x Hx. apply Ha.
  now apply filter_In in Hx.
Qed.

Section FeedOrder.
Context `{Collator} `{DateFormat} `{RegExpEngine}.

Lemma distinguishable_class_short (evs : list EventItem) (z : EventItem) :
  distinguishable evs ->
  (List.length (List.filter (cmp_eqb groupByMonth_compare z) evs) <= 1)%nat.
Proof.
  induction 1 as [|a l Ha _ IH]; simpl; [lia|].
  destruct (cmp_eqb groupByMonth_compare z a) eqn:Hza; [|exact IH].
  rewrite filter_none; [simpl; lia|].
  eapply Forall_impl; [|exact Ha]. intros b Hab. cbv beta in Hab.
  destruct (cmp_eqb groupByMonth_compare z b) eqn:Hzb; [|reflexivity].
  rewrite (eqv_sym _ groupByMonth_compare_consistent) in Hza.
  pose proof (eqv_trans _ groupByMonth_compare_consistent _ _ _ Hza Hzb).
  congruence.
Qed.

Lemma groupByMonth_feed_order (evs evs' : list EventItem) :
  Permutation evs evs' -> distinguishable evs ->
  groupByMonth evs' = groupByMonth evs.
Proof.
  intros Hp Hd. unfold groupByMonth.
  assert (E : Array_sort groupByMonth_compare evs'
              = Array_sort groupByMonth_compare evs).
  { apply Array_sort_unique; [exact groupByMonth_compare_consistent| |].
    - apply Array_sort_sorted, groupByMonth_compare_consistent.
    - intros z. rewrite Array_sort_stable by exact groupByMonth_compare_consistent.
      symmetry. apply Permutation_short_eq.
      + now apply Permutation_filter_both.
      + now apply distinguishable_class_short. }
  now rewrite E.
Qed.

(** X15: when no two events of a feed have the same start and summaries that
    compare equal, the order of the events in the feed does not matter: the
    rendered document, and the outcome of filtering, sorting and rendering,
    are the same for every rearrangement of the events. *)
Theorem document_ignores_feed_order :
  forall (evs evs' : list EventItem) (t : string) (opts : Opts),
    Permutation evs evs' -> distinguishable evs ->
    renderHTML t evs' opts = renderHTML t evs opts
    /\ action evs' opts = action evs opts.
Proof.
  intros evs evs' t opts Hp Hd.
  assert (Hr : forall t l l',
             Permutation l l' -> distinguishable l ->
             renderHTML t l' opts = renderHTML t l opts).
  { intros t0 l l' Hp' Hd'. unfold renderHTML, renderHTML_with.
    now rewrite (groupByMonth_feed_order l l' Hp' Hd'). }
  split; [now apply Hr|].
  unfold action.
  destruct (if truthy_opt_string (filter opts)
            then makeMatcher (filter opts) (caseSensitive opts)
            else inr None) as [err|matcher]; [reflexivity|].
  f_equal. unfold renderHTML, renderHTML_with, sortEvents, groupByMonth.
  fold (sortEvents (applyFilter evs' matcher (invert opts))).
  fold (sortEvents (applyFilter evs matcher (invert opts))).
  rewrite !groupByMonth_sort_absorbs.
  apply (Hr (opt_string_or (title opts) "Calendar")).
  - destruct matcher as [re|]; simpl; [now apply Permutation_filter_both | exact Hp].
  - destruct matcher as [re|]; simpl; [now apply ForallOrdPairs_filter | exact Hd].
Qed.
End FeedOrder.

(* ================================================================== *)
(** * The reference runtime is a runtime *)
(* ================================================================== *)

Lemma ascii_compare_refl (a : ascii) : Ascii.compare a a = Eq.
Proof. unfold Ascii.compare. apply N.compare_refl. Qed.

Lemma ascii_compare_lt_trans (a b c : ascii) :
  Ascii.compare a b = Lt -> Ascii.compare b c = Lt -> Ascii.compare a c = Lt.
Proof.
  unfold Ascii.compare. rewrite !N.compare_lt_iff. apply N.lt_trans.
Qed.

Lemma string_compare_le_trans (a : string) :
  forall b c,
    String.compare a b <> Gt -> String.compare b c <> Gt ->
    String.compare a c <> Gt.
Proof.
  induction a as [|x a IH]; intros [|y b] [|z c]; simpl; try congruence.
  destruct (Ascii.compare x y) eqn:Exy; [| |congruence].
  - apply Ascii.compare_eq_iff in Exy. subst y.
    destruct (Ascii.compare x z) eqn:Exz; try congruence. apply IH.
  - destruct (Ascii.compare y z) eqn:Eyz; [| |congruence].
    + apply Ascii.compare_eq_iff in Eyz. subst z. rewrite Exy. congruence.
    + rewrite (ascii_compare_lt_trans _ _ _ Exy Eyz). congruence.
Qed.

Lemma ordinalCompare_antisym (a b : string) :
  Z.sgn (Reference.ordinalCompare b a) = - Z.sgn (Reference.ordinalCompare a b).
Proof.
  unfold Reference.ordinalCompare. rewrite (String.compare_antisym a b).
  destruct (String.compare b a); reflexivity.
Qed.

Lemma ordinalCompare_trans (a b c : string) :
  Reference.ordinalCompare a b <= 0 -> Reference.ordinalCompare b c <= 0 ->
  Reference.ordinalCompare a c <= 0.
Proof.
  unfold Reference.ordinalCompare. intros Hab Hbc.
  pose proof (string_compare_le_trans a b c) as Ht.
  destruct (String.compare a b), (String.compare b c), (String.compare a c);
    try lia; exfalso; apply Ht; congruence.
Qed.

(** The collation by bytes. *)
#[export] Instance ordinalCollator : Collator := {
  localeCompare := Reference.ordinalCompare;
  localeCompare_antisym := ordinalCompare_antisym;
  localeCompare_trans := ordinalCompare_trans
}.

Lemma append_not_empty (s1 s2 : string) (c : ascii) :
  s1 ++ String c s2 <> EmptyString.
Proof. destruct s1; discriminate. Qed.

Lemma clock_not_empty (d : Date) : Reference.clock d <> EmptyString.
Proof. unfold Reference.clock. apply append_not_empty. Qed.

Lemma monthNames_not_Unknown (k : nat) (rest : string) :
  nth k Reference.monthNames "December" ++ rest <> "Unknown".
Proof.
  unfold Reference.monthNames.
  do 12 (destruct k as [|k]; [discriminate|]).
  destruct k; discriminate.
Qed.

Lemma monthYear_not_Unknown (d : Date) : Reference.monthYear d <> "Unknown".
Proof.
  unfold Reference.monthYear.
  destruct (Reference.civilFromDays (getTime d / Reference.msPerDay)) as [[y m] dd].
  apply monthNames_not_Unknown.
Qed.

Lemma formatUTC_not_Unknown (d : Date) :
  @formatInTimeZone Reference.utcFormat d (@currentTimeZone Reference.utcFormat)
    "MMMM yyyy" <> "Unknown".
Proof. apply monthYear_not_Unknown. Qed.


(* ================================================================== *)
(** * The model at work on the reference runtime *)
(* ================================================================== *)

Import Reference.

(** The scenario of the specification: of three events the pattern [game],
    matched without regard to case, keeps the one with Game in its summary,
    and the document has the single group March 2025. *)
Example filter_scenario :
  match makeMatcher (Some "game") (Some false) with
  | inr matcher =>
      applyFilter [practice; game; someday] matcher (Some false) = [game]
      /\ map groupKey (snd (groupByMonth (sortEvents [game]))) = ["March 2025"]
  | inl _ => False
  end.
Proof. vm_compute. split; reflexivity. Qed.

(** An empty pattern is no pattern: even under [invert] all events stay. *)
Example empty_pattern_is_no_filter :
  makeMatcher (Some EmptyString) (Some false) = inr None
  /\ applyFilter [practice; game; someday] None (Some true)
     = [practice; game; someday].
Proof. split; reflexivity. Qed.

(** Two events with the same start leave the sorter in the order they had. *)
Example sortEvents_keeps_equal_starts :
  sortEvents [alpha; beta] = [alpha; beta]
  /\ sortEvents [beta; alpha] = [beta; alpha]
  /\ sortEvents [someday; practice; game] = [game; practice; someday].
Proof. vm_compute. repeat split. Qed.

(** No event, no group: the document keeps its title and has no section
    and no entry. *)
Example empty_calendar :
  snd (groupByMonth []) = []
  /\ contains "<h1>Calendar</h1>" (renderHTML "Calendar" [] defaultOpts) = true
  /\ contains "<section" (renderHTML "Calendar" [] defaultOpts) = false
  /\ contains "<div" (renderHTML "Calendar" [] defaultOpts) = false.
Proof. vm_compute. repeat split. Qed.

(** The text of the specification's escaping scenario. *)
Example escapeHtml_script :
  escapeHtml ("<script>&" ++ dq ++ "'") = "&lt;script&gt;&amp;&quot;&#39;".
Proof. reflexivity. Qed.

(** ** The theorems with an assumption, at concrete inputs *)

Lemma unknown_group_is_last_witness :
  (forall d, formatInTimeZone d currentTimeZone "MMMM yyyy" <> "Unknown")
  /\ snd (groupByMonth [someday; practice; endOnly; game])
     = ([mkGroup "March 2025" [game; practice]]
          ++ mkGroup "Unknown" [endOnly; someday] :: [])%list
  /\ groupKey (mkGroup "Unknown" [endOnly; someday]) = "Unknown"
  /\ (@nil Group = []
      /\ Forall (fun e => start e = None) (events (mkGroup "Unknown" [endOnly; someday]))
      /\ Forall (fun e => start e <> None)
                (List.concat (map events [mkGroup "March 2025" [game; practice]]))).
Proof.
  split; [exact formatUTC_not_Unknown|].
  split; [vm_compute; reflexivity|].
  split; [reflexivity|].
  apply (unknown_group_is_last [someday; practice; endOnly; game]
           formatUTC_not_Unknown
           [mkGroup "March 2025" [game; practice]]
           (mkGroup "Unknown" [endOnly; someday]) []).
  - vm_compute. reflexivity.
  - reflexivity.
Defined.

Lemma timeRange_by_presence_witness :
  (forall d, toLocaleTimeString d <> EmptyString)
  /\ timeRange game = "11:06 AM – 12:06 PM"
  /\ timeRange practice = "12:06 PM"
  /\ timeRange someday = EmptyString.
Proof.
  split; [exact clock_not_empty|].
  split; [|split].
  - exact (timeRange_by_presence clock_not_empty game).
  - exact (timeRange_by_presence clock_not_empty practice).
  - exact (timeRange_by_presence clock_not_empty someday).
Defined.


(** ** Where the code departs from the specification *)

(** C3 does not hold: [beta] and [alpha] start at the same instant and leave
    the sorter in the order they came in, and the grouper hands them back
    with [alpha] first. *)
Lemma groupByMonth_reorders_equal_starts :
  sortEvents [beta; alpha] = [beta; alpha]
  /\ List.concat (map events (snd (groupByMonth (sortEvents [beta; alpha]))))
     = [alpha; beta]
  /\ List.concat (map events (snd (groupByMonth (sortEvents [beta; alpha]))))
     <> sortEvents [beta; alpha].
Proof.
  split; [vm_compute; reflexivity|].
  split; [vm_compute; reflexivity|].
  vm_compute. discriminate.
Qed.

(** C6 does not hold: an event with an end and no start has the separator
    before its end time, not the end time alone. *)
Lemma timeRange_end_only_keeps_separator :
  start endOnly = None
  /\ end_ endOnly = Some march3
  /\ formatTime (end_ endOnly) = "11:06 AM"
  /\ timeRange endOnly = " – 11:06 AM"
  /\ timeRange endOnly <> formatTime (end_ endOnly).
Proof.
  repeat split. vm_compute. discriminate.
Qed.

(** C1 does not hold when the pattern supplied is the empty string: the
    expression compiled from it matches every haystack, so under [invert] no
    event should stay; but the run builds no matcher for it and every event
    stays. *)
Lemma empty_pattern_with_invert_keeps_all :
  filter (withFilter EmptyString true) = Some EmptyString
  /\ invert (withFilter EmptyString true) = Some true
  /\ RegExp_new EmptyString (Some "i") = inr (mkLiteralRegExp EmptyString true)
  /\ RegExp_test (mkLiteralRegExp EmptyString true) (haystack game) = true
  /\ (if truthy_opt_string (filter (withFilter EmptyString true))
      then makeMatcher (filter (withFilter EmptyString true))
                       (caseSensitive (withFilter EmptyString true))
      else inr None) = inr None
  /\ applyFilter [game] None (invert (withFilter EmptyString true)) = [game]
  /\ ~ (In game (applyFilter [game] None (invert (withFilter EmptyString true)))
        <-> RegExp_test (mkLiteralRegExp EmptyString true) (haystack game)
            = negb (truthy_flag (invert (withFilter EmptyString true)))).
Proof.
  repeat split; try reflexivity.
  intros [Hkeep _]. specialize (Hkeep (or_introl eq_refl)).
  vm_compute in Hkeep. discriminate.
Qed.

(** ** The run in a small world *)

Definition toyFeed : list (option EventItem) :=
  [Some practice; None; Some game; Some someday].

Definition toyRun (url : string) (opts : Opts) : IO unit :=
  @program_action ordinalCollator utcFormat literalEngine
                  ToyWorld.network (ToyWorld.ical toyFeed) ToyWorld.files url opts.

(** The malformed block is dropped, the address is fetched over [https:],
    one file is written and its path printed. *)
Example toyRun_succeeds :
  @parseICal (ToyWorld.ical toyFeed) ToyWorld.feedBody = inr [practice; game; someday]
  /\ snd (toyRun "WebCal://example.org/cal.ics" (withFilter "game" false)) = inr tt
  /\ fetchesOf (fst (toyRun "WebCal://example.org/cal.ics" (withFilter "game" false)))
     = ["https://example.org/cal.ics"]
  /\ writesOf (fst (toyRun "WebCal://example.org/cal.ics" (withFilter "game" false)))
     = [("/home/user/output/calendar.html",
         renderHTML "Calendar" [game] (withFilter "game" false))]
  /\ logsOf (fst (toyRun "WebCal://example.org/cal.ics" (withFilter "game" false)))
     = ["/home/user/output/calendar.html"].
Proof. vm_compute. repeat split. Qed.

(** A response that is not [ok] ends the run before anything is written. *)
Example toyRun_not_found :
  toyRun "https://example.org/missing.ics" defaultOpts
  = ([Fetch "https://example.org/missing.ics"],
     inl (ThrowError "Failed to fetch https://example.org/missing.ics: 404 Not Found")).
Proof. vm_compute. reflexivity. Qed.

Lemma program_action_quiet_witness :
  truthy_flag (debug defaultOpts) = false
  /\ debugsOf (fst (toyRun "webcal://example.org/cal.ics" defaultOpts)) = [].
Proof.
  split; [reflexivity|]. unfold toyRun.
  apply (program_action_quiet (H3 := ToyWorld.ical toyFeed)). reflexivity.
Defined.

Lemma sample_rearranged :
  Permutation [game; practice; someday] [someday; game; practice].
Proof.
  apply Permutation_sym. apply (Permutation_cons_append [game; practice] someday).
Qed.

Lemma sample_distinguishable : distinguishable [game; practice; someday].
Proof.
  unfold distinguishable. repeat constructor; vm_compute; reflexivity.
Qed.

Lemma document_ignores_feed_order_witness :
  Permutation [game; practice; someday] [someday; game; practice]
  /\ distinguishable [game; practice; someday]
  /\ renderHTML "Calendar" [someday; game; practice] defaultOpts
     = renderHTML "Calendar" [game; practice; someday] defaultOpts
  /\ action [someday; game; practice] (withFilter "game" false)
     = action [game; practice; someday] (withFilter "game" false).
Proof.
  split; [exact sample_rearranged|]. split; [exact sample_distinguishable|].
  split.
  - apply (document_ignores_feed_order _ _ "Calendar" defaultOpts
             sample_rearranged sample_distinguishable).
  - apply (document_ignores_feed_order _ _ "Calendar" (withFilter "game" false)
             sample_rearranged sample_distinguishable).
Defined.
